(** * A shallow embedding of [server.cpp]: the durable index engine
    ([PersistentHashTable]), the append-only value store
    ([BinaryPersistentHashTable]), the two request handlers, and the
    socket set-up and event loop of [main].

    Conventions.
    - A [std::string] is a [string]; the contents of a file and of a
      stream are a [list ascii] (one [ascii] per [char]).
    - A [uint64_t] is an [N] below [2^64], an [int] a [Z]; where the
      source converts or overflows, the wrap-around or clamping is written
      out.
    - [std::unordered_map<K, V>] is a [gmap]; [std::vector] is a [list].
    - Files live in the state: the text of the log and snapshot files in
      the engine's record, the bytes of the value file in the [FILE].
      Every write reaches the file (disk errors are not modelled).
    - The snapshot thread is a program counter in the engine's state; the
      mutex makes [put], [get], [dropLogs] and the two flag assignments
      of [dropTable] atomic, so an execution is a sequence of such steps. *)

From Stdlib Require Import Ascii String NArith ZArith.
From stdpp Require Import gmap strings list fin_maps.

Open Scope N_scope.

(** ** Results of code that may abort or read an uninitialised variable *)

Inductive outcome (A : Type) : Type :=
| Ok (a : A)
| Aborted
| Indeterminate.
Arguments Ok {A} a.
Arguments Aborted {A}.
Arguments Indeterminate {A}.

#[global] Instance outcome_bind : MBind outcome := λ A B k x,
  match x with
  | Ok a => k a
  | Aborted => Aborted
  | Indeterminate => Indeterminate
  end.

(** ** Formatted text input and output ([<<] and [>>] of iostream, "C" locale) *)

Module Text.

(** [std::isspace]: space, and the controls 9 to 13. *)
Definition isspace (c : ascii) : bool :=
  let n := N_of_ascii c in (n =? 32) || ((9 <=? n) && (n <=? 13)).

Definition digit_of (c : ascii) : option N :=
  let n := N_of_ascii c in
  if (48 <=? n) && (n <=? 57) then Some (n - 48) else None.

Definition digit_char (d : N) : ascii := ascii_of_N (48 + d).

(** [stream << n] for an unsigned integer: its decimal digits. *)
Fixpoint print_digits (fuel : nat) (n : N) (acc : list ascii) : list ascii :=
  match fuel with
  | O => acc
  | S f =>
      let acc' := digit_char (n mod 10) :: acc in
      if n / 10 =? 0 then acc' else print_digits f (n / 10) acc'
  end.

Definition print_N (n : N) : list ascii :=
  print_digits (S (N.size_nat n)) n [].

(** An input stream: the characters not yet consumed and [failbit].
    ([eofbit] is not kept: it is set only when nothing is left, and an
    extraction from an exhausted stream fails in the sentry either way.) *)
Record ifstream : Type := { rest : list ascii; failbit : bool }.

Definition opened (content : list ascii) : ifstream :=
  {| rest := content; failbit := false |}.
Definition still_good (r : list ascii) : ifstream :=
  {| rest := r; failbit := false |}.
Definition failed (r : list ascii) : ifstream :=
  {| rest := r; failbit := true |}.

Fixpoint skipws (s : list ascii) : list ascii :=
  match s with
  | c :: s' => if isspace c then skipws s' else s
  | [] => []
  end.

(** The characters up to the next white space, and what follows. *)
Fixpoint take_token (s : list ascii) : list ascii * list ascii :=
  match s with
  | c :: s' =>
      if isspace c then ([], s)
      else let '(tok, r) := take_token s' in (c :: tok, r)
  | [] => ([], [])
  end.

(** [stream >> key] for a [std::string] that was just default-constructed:
    nothing happens on a failed stream; otherwise white space is skipped and
    the next token is extracted; at end of input the stream fails. *)
Definition extract_string (st : ifstream) : string * ifstream :=
  if failbit st then (EmptyString, st)
  else
    match skipws (rest st) with
    | [] => (EmptyString, failed [])
    | s => let '(tok, r) := take_token s in (string_of_list_ascii tok, still_good r)
    end.

Fixpoint digits_acc (acc : N) (s : list ascii) : N * list ascii :=
  match s with
  | c :: s' =>
      match digit_of c with
      | Some d => digits_acc (10 * acc + d) s'
      | None => (acc, s)
      end
  | [] => (acc, [])
  end.

Definition starts_with_digit (s : list ascii) : bool :=
  match s with
  | c :: _ => match digit_of c with Some _ => true | None => false end
  | [] => false
  end.

(** [num_get] in base ten: an optional sign, then digits. The result is
    [None] when no digit follows, else the sign and the magnitude (not yet
    reduced to the width of the target). *)
Definition extract_number (s : list ascii) : option (bool * N) * list ascii :=
  let '(negative, s1) :=
    match s with
    | c :: t =>
        if N_of_ascii c =? 45 then (true, t)
        else if N_of_ascii c =? 43 then (false, t)
        else (false, s)
    | [] => (false, s)
    end in
  if starts_with_digit s1
  then let '(n, s2) := digits_acc 0 s1 in (Some (negative, n), s2)
  else (None, s1).

Definition UINT64_MAX : N := 2 ^ 64 - 1.
Definition INT_MAX : Z := (2 ^ 31 - 1)%Z.
Definition INT_MIN : Z := (- 2 ^ 31)%Z.

(** [stream >> value] for a [uint64_t]. [None] as a value: the variable
    was not assigned (it keeps whatever it held, here nothing: the source
    declares it without an initialiser). No digits: zero and [failbit];
    out of range: the largest value and [failbit]; a minus sign negates
    modulo [2^64]. *)
Definition extract_uint64 (st : ifstream) : option N * ifstream :=
  if failbit st then (None, st)
  else
    match skipws (rest st) with
    | [] => (None, failed [])
    | s =>
        match extract_number s with
        | (None, r) => (Some 0, failed r)
        | (Some (negative, n), r) =>
            if UINT64_MAX <? n then (Some UINT64_MAX, failed r)
            else (Some (if negative then (2 ^ 64 - n) mod 2 ^ 64 else n), still_good r)
        end
    end.

(** [stream >> cnt] for an [int]: as above, clamped to the range of [int]
    with [failbit] when the number does not fit. *)
Definition extract_int (st : ifstream) : option Z * ifstream :=
  if failbit st then (None, st)
  else
    match skipws (rest st) with
    | [] => (None, failed [])
    | s =>
        match extract_number s with
        | (None, r) => (Some 0%Z, failed r)
        | (Some (negative, n), r) =>
            let z := if negative then (- Z.of_N n)%Z else Z.of_N n in
            if (z <? INT_MIN)%Z then (Some INT_MIN, failed r)
            else if (INT_MAX <? z)%Z then (Some INT_MAX, failed r)
            else (Some z, still_good r)
        end
    end.

End Text.

(** ** [FileWriteReadStrategy<std::string, uint64_t>] *)

Definition space : ascii := ascii_of_N 32.

(** [stream << k << ' ' << v << ' '] *)
Definition writeToFile (k : string) (v : N) (stream : list ascii) : list ascii :=
  stream ++ list_ascii_of_string k ++ [space] ++ Text.print_N v ++ [space].

(** [stream >> key >> value; return { key, value }]. The value is [None]
    when [value] was returned without ever being assigned. *)
Definition readFromFile (stream : Text.ifstream) : (string * option N) * Text.ifstream :=
  let '(key, st1) := Text.extract_string stream in
  let '(value, st2) := Text.extract_uint64 st1 in
  ((key, value), st2).


(** ** [PersistentHashTable<std::string, uint64_t>] *)

Module PersistentHashTable.

(** Where the snapshot thread ([dropper]) stands: between two snapshots,
    before the tests of [cancelThread] around the sleep; past the second
    test, about to call [dropTable]; inside [dropTable] after raising
    [dropping]; inside [dropTable] after the file is written; or returned. *)
Inductive thread_pc : Type := Sleeping | Checked | Flagged | Written | Finished.

(** The members of the class, and the text of the two files it owns:
    [logs_txt] is the file at [logsPath], [db_txt] the file at [dbPath],
    [None] while the file does not exist. *)
Record t : Type := mk {
  pendingLog : list (string * N);
  db : gmap string N;
  dropping : bool;
  cancelThread : bool;
  dropThread : thread_pc;
  logs_txt : option (list ascii);
  db_txt : option (list ascii)
}.

Definition set_dropping (b : bool) (s : t) : t :=
  mk (pendingLog s) (db s) b (cancelThread s) (dropThread s) (logs_txt s) (db_txt s).
Definition set_cancelThread (b : bool) (s : t) : t :=
  mk (pendingLog s) (db s) (dropping s) b (dropThread s) (logs_txt s) (db_txt s).
Definition set_dropThread (pc : thread_pc) (s : t) : t :=
  mk (pendingLog s) (db s) (dropping s) (cancelThread s) pc (logs_txt s) (db_txt s).

(** The loops [for (auto& entry: ...) fwrs.writeToFile(...)], after the
    count: [stream << size << ' ']. *)
Definition write_entries (entries : list (string * N)) : list ascii :=
  foldl (λ stream e, writeToFile e.1 e.2 stream)
        (Text.print_N (N.of_nat (length entries)) ++ [space]) entries.

(** [for (int i = 0; i < cnt; i++) { auto pair = readFromFile(stream);
    db[pair.first] = pair.second; }] *)
Fixpoint read_entries (cnt : nat) (stream : Text.ifstream) (m : gmap string N)
  : outcome (gmap string N) :=
  match cnt with
  | O => Ok m
  | S c =>
      match readFromFile stream with
      | ((key, Some value), stream') => read_entries c stream' (<[key := value]> m)
      | ((_, None), _) => Indeterminate
      end
  end.

(** [if (stream.good()) { int cnt; stream >> cnt; for ... }]: a file that
    cannot be opened is skipped; [cnt] is read before the loop tests it. *)
Definition load (file : option (list ascii)) (m : gmap string N)
  : outcome (gmap string N) :=
  match file with
  | None => Ok m
  | Some content =>
      match Text.extract_int (Text.opened content) with
      | (Some cnt, stream) => read_entries (Z.to_nat cnt) stream m
      | (None, _) => Indeterminate
      end
  end.

(** The constructor, given the files found on disk: the snapshot file is
    loaded first, then the log file. The thread it starts sleeps first. *)
Definition construct (logs dbf : option (list ascii)) : outcome t :=
  m1 ← load dbf ∅;
  m2 ← load logs m1;
  Ok (mk [] m2 false false Sleeping logs dbf).

Definition put (key : string) (value : N) (s : t) : t :=
  mk (pendingLog s ++ [(key, value)])
     (if dropping s then db s else <[key := value]> (db s))
     (dropping s) (cancelThread s) (dropThread s) (logs_txt s) (db_txt s).

(** [for (int i = size - 1; i >= 0; i--) if (pendingLog[i].first == key)
    return &pendingLog[i].second;]: [scan_back key i log] looks at the
    indices [i-1] down to [0]. *)
Fixpoint scan_back (key : string) (i : nat) (log : list (string * N)) : option N :=
  match i with
  | O => None
  | S j =>
      match log !! j with
      | Some (k, v) => if decide (k = key) then Some v else scan_back key j log
      | None => scan_back key j log
      end
  end.

(** [None] is the null pointer. *)
Definition get (key : string) (s : t) : option N :=
  match scan_back key (length (pendingLog s)) (pendingLog s) with
  | Some v => Some v
  | None => db s !! key
  end.

(** [dropTable] in its three steps: the flag is raised under the mutex,
    the file is truncated and rewritten outside it, the flag is lowered
    under the mutex. *)
Definition dropTable_begin (s : t) : t := set_dropping true s.

(** The write, with the entries in the order in which the loop
    [for (auto& entry: db)] meets them. That order is the business of
    [std::unordered_map]; it is an input here, some arrangement of the
    entries of the map. *)
Definition dropTable_write_in (order : list (string * N)) (s : t) : t :=
  mk (pendingLog s) (db s) (dropping s) (cancelThread s) (dropThread s)
     (logs_txt s) (Some (write_entries order)).

(** The write in one such order, the one in which [gmap] lists its entries. *)
Definition dropTable_write (s : t) : t := dropTable_write_in (map_to_list (db s)) s.
Definition dropTable_end (s : t) : t := set_dropping false s.


Definition dropTable (s : t) : t :=
  dropTable_end (dropTable_write (dropTable_begin s)).

Definition dropLogs (s : t) : t :=
  let logsStream := write_entries (pendingLog s) in
  if dropping s
  then mk (pendingLog s) (db s) (dropping s) (cancelThread s) (dropThread s)
          (Some logsStream) (db_txt s)
  else mk [] (foldl (λ m e, <[e.1 := e.2]> m) (db s) (pendingLog s))
          (dropping s) (cancelThread s) (dropThread s)
          (Some logsStream) (db_txt s).

(** One atomic step of the thread running [dropper]. The test of
    [cancelThread] and the raising of [dropping] are two steps: the
    destructor may set [cancelThread] between them, and the thread then
    still runs one whole [dropTable]. *)
Definition dropper_step (s : t) : t :=
  match dropThread s with
  | Sleeping =>
      if cancelThread s then set_dropThread Finished s
      else set_dropThread Checked s
  | Checked => set_dropThread Flagged (dropTable_begin s)
  | Flagged => set_dropThread Written (dropTable_write s)
  | Written => set_dropThread Sleeping (dropTable_end s)
  | Finished => s
  end.

(** [dropThread.join()] once [cancelThread] is set: the thread finishes
    the snapshot it is in or has decided on, if any, and returns; four
    steps reach the end from every program counter. *)
Definition join (s : t) : t :=
  dropper_step (dropper_step (dropper_step (dropper_step s))).

(** The destructor. *)
Definition destroy (s : t) : t := dropLogs (join (set_cancelThread true s)).

(** What may happen between two calls of [put] and [get]: a flush, a
    step of the snapshot thread, or a step of a [dropTable] that someone
    else calls. *)
Inductive background : Type :=
| Flush
| Dropper
| Snapshot_begin
| Snapshot_write
| Snapshot_end.

Definition step (e : background) (s : t) : t :=
  match e with
  | Flush => dropLogs s
  | Dropper => dropper_step s
  | Snapshot_begin => dropTable_begin s
  | Snapshot_write => dropTable_write s
  | Snapshot_end => dropTable_end s
  end.

Definition run (es : list background) (s : t) : t := foldl (λ s e, step e s) s es.

Definition puts (kvs : list (string * N)) (s : t) : t :=
  foldl (λ s e, put e.1 e.2 s) s kvs.

(** Every state-changing step: a [put] of the reactor thread, or one of
    the above ([get] changes nothing). *)
Inductive event : Type := Put (key : string) (value : N) | Bg (e : background).

Definition exec1 (e : event) (s : t) : t :=
  match e with
  | Put key value => put key value s
  | Bg b => step b s
  end.

Definition exec (es : list event) (s : t) : t := foldl (λ s e, exec1 e s) s es.

(** A restart: the constructor run on the files that [s] leaves behind. *)
Definition recover (s : t) : outcome t := construct (logs_txt s) (db_txt s).

Definition recovered_get (key : string) (s : t) : outcome (option N) :=
  s' ← recover s; Ok (get key s').

(** The state of a first start, with no file on disk. *)
Definition fresh : t := mk [] ∅ false false Sleeping None None.

End PersistentHashTable.

(** ** The value file: a [FILE*] opened with [fopen(path, "ab+")] *)

Module Stdio.

(** The bytes of the file as the stream has them (what is on disk,
    followed by what [fwrite] has put in the stream's buffer and stdio
    has not yet written out), and the file position indicator. What is
    on disk alone is not followed: the program never calls [fflush] or
    [fclose], so the bytes of a [put] reach the disk at a later [fseek],
    when the buffer is full, or at a regular exit. *)
Record FILE : Type := { fdata : list ascii; fpos : N }.

(** [fopen(path, "ab+")]: the file is created when absent and never
    truncated. Where the position indicator starts is left to the C
    library: [at_end = false] is glibc and musl (the beginning of the
    file), [at_end = true] the BSD libraries (the end). *)
Definition fopen_ab (at_end : bool) (content : option (list ascii)) : FILE :=
  let data := default [] content in
  {| fdata := data; fpos := if at_end then N.of_nat (length data) else 0 |}.

Definition ftell (f : FILE) : N := fpos f.

(** In append mode every write goes to the end of the file, wherever the
    position indicator was, and leaves the indicator at the new end. The
    bytes are the stream's from then on, on disk or in its buffer. *)
Definition fwrite (bytes : list ascii) (f : FILE) : FILE :=
  {| fdata := fdata f ++ bytes; fpos := N.of_nat (length (fdata f ++ bytes)) |}.

(** [fseek(f, offset, SEEK_SET)] with [offset] a [uint64_t] converted to
    [long]: from [2^63] on it is negative and the call fails. *)
Definition fseek_set (offset : N) (f : FILE) : FILE :=
  if offset <? 2 ^ 63 then {| fdata := fdata f; fpos := offset |} else f.

Definition fseek_end (f : FILE) : FILE :=
  {| fdata := fdata f; fpos := N.of_nat (length (fdata f)) |}.

(** [fread(buf, 1, n, f)]: the bytes read (fewer than [n] at end of file)
    and the stream after them. *)
Definition fread (n : N) (f : FILE) : list ascii * FILE :=
  let got := take (N.to_nat n) (drop (N.to_nat (fpos f)) (fdata f)) in
  (got, {| fdata := fdata f; fpos := fpos f + N.of_nat (length got) |}).

(** The object representation of an unsigned integer, low byte first. *)
Fixpoint le_bytes (width : nat) (v : N) : list ascii :=
  match width with
  | O => []
  | S w => ascii_of_N (v mod 256) :: le_bytes w (v / 256)
  end.

Fixpoint le_value (bytes : list ascii) : N :=
  match bytes with
  | [] => 0
  | b :: r => N_of_ascii b + 256 * le_value r
  end.

End Stdio.

(** ** [BinaryPersistentHashTable] *)

Module BinaryPersistentHashTable.

Import Stdio.

(** [table] is a reference to the engine that [main] also flushes. *)
Record t : Type := mk { table : PersistentHashTable.t; f : FILE }.

Definition construct (at_end : bool) (binary_file : option (list ascii))
    (table_ : PersistentHashTable.t) : t :=
  mk table_ (fopen_ab at_end binary_file).

(** Lines 201 to 207: seek to the offset, read the length, read that many
    bytes into a string of that many zero characters, seek to the end.
    When fewer than eight bytes are left at the offset, [sz] is used
    without having been assigned. The construction of the string is
    taken to succeed here; [read_at_within] below has the case where it
    does not. *)
Definition read_at (offset : N) (f : FILE) : outcome (string * FILE) :=
  let f1 := fseek_set offset f in
  let '(sz_bytes, f2) := fread 8 f1 in
  if decide (length sz_bytes = 8%nat) then
    let sz := le_value sz_bytes in
    let '(got, f3) := fread sz f2 in
    let ret := got ++ replicate (N.to_nat sz - length got) Ascii.zero in
    Ok (string_of_list_ascii ret, fseek_end f3)
  else Indeterminate.

Definition get (key : string) (s : t) : outcome (string * t) :=
  match PersistentHashTable.get key (table s) with
  | None => Ok (EmptyString, s)
  | Some offset =>
      r ← read_at offset (f s);
      Ok (r.1, mk (table s) r.2)
  end.

(** The same two functions on a machine where [std::string ret(sz, 0)]
    can fail: [limit] is the largest length for which the construction
    succeeds (never more than [max_size()], less when memory is short).
    Above it the constructor throws [std::length_error] or
    [std::bad_alloc], nothing catches it, and the process ends. [read_at]
    and [get] above take the construction to succeed. *)
Definition read_at_within (limit : N) (offset : N) (f : FILE) : outcome (string * FILE) :=
  let f1 := fseek_set offset f in
  let '(sz_bytes, f2) := fread 8 f1 in
  if decide (length sz_bytes = 8%nat) then
    let sz := le_value sz_bytes in
    if limit <? sz then Aborted
    else
      let '(got, f3) := fread sz f2 in
      let ret := got ++ replicate (N.to_nat sz - length got) Ascii.zero in
      Ok (string_of_list_ascii ret, fseek_end f3)
  else Indeterminate.

Definition get_within (limit : N) (key : string) (s : t) : outcome (string * t) :=
  match PersistentHashTable.get key (table s) with
  | None => Ok (EmptyString, s)
  | Some offset =>
      r ← read_at_within limit offset (f s);
      Ok (r.1, mk (table s) r.2)
  end.

(** Lines 211 to 214: the offset told by [ftell], and the file after the
    two writes. *)
Definition append (value : string) (f : FILE) : N * FILE :=
  let sz := N.of_nat (String.length value) in
  let offset := ftell f in
  let f1 := fwrite (le_bytes 8 sz) f in
  let f2 := fwrite (take (N.to_nat sz) (list_ascii_of_string value)) f1 in
  (offset, f2).

Definition put (key value : string) (s : t) : t :=
  let '(offset, f') := append value (f s) in
  mk (PersistentHashTable.put key offset (table s)) f'.

(** [st.dropLogs()] in the reactor loop and the steps of the snapshot
    thread act on the shared engine. *)
Definition background (es : list PersistentHashTable.background) (s : t) : t :=
  mk (PersistentHashTable.run es (table s)) (f s).

End BinaryPersistentHashTable.

(** ** The request handlers of [main] *)

Module Server.

(** The messages of [kv.pb.h], as far as the handlers use them. The
    field called [offset] carries the client's value. *)
Record TGetRequest : Type := { get_request_id : N; get_key : string }.
Record TPutRequest : Type :=
  { put_request_id : N; put_key : string; put_offset : string }.
Record TGetResponse : Type :=
  { get_response_id : N; get_response_offset : option string }.
Record TPutResponse : Type := { put_response_id : N }.

Section Handlers.

(** Decoding and encoding belong to the protobuf runtime and to
    [protocol.h]: [ParseFromArray] per request type, and
    [serialize_header] followed by [SerializeToOstream] per response
    type; [PUT_REQUEST] and [GET_REQUEST] are the message-type tags. *)
Variable parse_get : string → option TGetRequest.
Variable parse_put : string → option TPutRequest.
Variable encode_get : TGetResponse → string.
Variable encode_put : TPutResponse → string.
Variables PUT_REQUEST GET_REQUEST : ascii.

Definition handle_get (request : string) (binaryDb : BinaryPersistentHashTable.t)
  : outcome (string * BinaryPersistentHashTable.t) :=
  match parse_get request with
  | None => Aborted
  | Some get_request =>
      r ← BinaryPersistentHashTable.get (get_key get_request) binaryDb;
      let it := r.1 in
      let get_response :=
        {| get_response_id := get_request_id get_request;
           get_response_offset := if decide (it = EmptyString) then None else Some it |} in
      Ok (encode_get get_response, r.2)
  end.

Definition handle_put (request : string) (binaryDb : BinaryPersistentHashTable.t)
  : outcome (string * BinaryPersistentHashTable.t) :=
  match parse_put request with
  | None => Aborted
  | Some put_request =>
      let binaryDb' :=
        BinaryPersistentHashTable.put (put_key put_request) (put_offset put_request) binaryDb in
      Ok (encode_put {| put_response_id := put_request_id put_request |}, binaryDb')
  end.

Definition handler (request_type : ascii) (request : string)
    (binaryDb : BinaryPersistentHashTable.t)
  : outcome (string * BinaryPersistentHashTable.t) :=
  if decide (request_type = PUT_REQUEST) then handle_put request binaryDb
  else if decide (request_type = GET_REQUEST) then handle_get request binaryDb
  else Aborted.

End Handlers.

End Server.

(** ** Sockets: [create_and_bind], [accept_connection] and the body of
    the event loop of [main]

    The operating system is an input: each system call returns the
    answer that the caller supplies, and the calls that matter afterwards
    ([socket], [close], [freeaddrinfo]) are recorded. *)

Module Net.

(** One entry of the list that [getaddrinfo] fills: what [socket] and
    what [bind] answer for it. *)
Record addrinfo : Type := { socket_answer : Z; bind_answer : Z }.

Inductive syscall : Type :=
| Sys_socket (fd : Z)
| Sys_close (fd : Z)
| Sys_freeaddrinfo.

(** The loop [for (rp = result; rp != nullptr; rp = rp->ai_next)]: the
    descriptor it leaves the loop with ([None]: [rp] ran to [nullptr]),
    and the calls made. *)
Fixpoint bind_first (result : list addrinfo) (trace : list syscall)
  : option Z * list syscall :=
  match result with
  | [] => (None, trace)
  | rp :: rest =>
      let socketfd := socket_answer rp in
      let trace1 := trace ++ [Sys_socket socketfd] in
      if decide (socketfd = (-1)%Z) then bind_first rest trace1
      else if decide (bind_answer rp = 0%Z) then (Some socketfd, trace1)
      else bind_first rest (trace1 ++ [Sys_close socketfd])
  end.

(** [create_and_bind], given the answer of [getaddrinfo] and the list it
    filled: the descriptor returned ([-1] on failure) and the calls made. *)
Definition create_and_bind (getaddrinfo_answer : Z) (result : list addrinfo)
  : Z * list syscall :=
  if decide (getaddrinfo_answer ≠ 0%Z) then ((-1)%Z, [])
  else
    match bind_first result [] with
    | (None, trace) => ((-1)%Z, trace)
    | (Some socketfd, trace) => (socketfd, trace ++ [Sys_freeaddrinfo])
    end.

Definition O_NONBLOCK : Z := 2048.

(** [make_socket_nonblocking], given the answers of the two [fcntl]
    calls: the result, and the flags handed to [F_SETFL] if it got there. *)
Definition make_socket_nonblocking (getfl_answer setfl_answer : Z) : bool * option Z :=
  if decide (getfl_answer = (-1)%Z) then (false, None)
  else
    let flags := Z.lor getfl_answer O_NONBLOCK in
    if decide (setfl_answer = (-1)%Z) then (false, Some flags)
    else (true, Some flags).

Definition EPOLLIN : Z := 1.
Definition EPOLLOUT : Z := 4.
Definition EPOLLERR : Z := 8.
Definition EPOLLHUP : Z := 16.

(** What one call of [accept_connection] meets: [accept] would block,
    [accept] fails otherwise, or a connection arrives on [infd] and the
    two [fcntl] calls and [epoll_ctl] answer as given. *)
Inductive arrival : Type :=
| Would_block
| Accept_failed
| Arrived (infd getfl_answer setfl_answer epoll_ctl_answer : Z).

(** One event of the array that [epoll_wait] fills, with the arrivals
    that the accept loop meets if the event is for the listening socket. *)
Record epoll_event : Type := {
  data_fd : Z;
  events : Z;
  arrivals : list arrival
}.

Section Reactor.

(** [SocketState], [process_input] and [process_output] belong to
    [rpc.h]: a state has a descriptor [fd]; [process_input] may call the
    handler, which works on the store, and may not return; both report
    whether the connection is to be kept. A [SocketStatePtr] that is
    stored in [states] is modelled by the state it points to, written
    back after each call that may change it. *)
Context {SocketState : Type}.
Variable new_state : SocketState.
Variable fd_of : SocketState → Z.
Variable with_fd : Z → SocketState → SocketState.
Variable process_input :
  (ascii → string → BinaryPersistentHashTable.t →
   outcome (string * BinaryPersistentHashTable.t)) →
  SocketState → BinaryPersistentHashTable.t →
  outcome (bool * SocketState * BinaryPersistentHashTable.t).
Variable process_output : SocketState → bool * SocketState.

(** The [Handler] that [main] builds from [handle_get] and [handle_put]. *)
Variable handler :
  ascii → string → BinaryPersistentHashTable.t →
  outcome (string * BinaryPersistentHashTable.t).

(** The listening socket. *)
Variable socketfd : Z.

(** The variables of [main] that the loop works on, and the descriptors
    it has closed. *)
Record t : Type := mk {
  states : gmap Z SocketState;
  binaryDb : BinaryPersistentHashTable.t;
  closed : list Z
}.

(** [nullptr] is [None]; [invalid_state()] is a new state. *)
Definition accept_connection (a : arrival) : option SocketState :=
  match a with
  | Would_block => None
  | Accept_failed => Some new_state
  | Arrived infd getfl_answer setfl_answer epoll_ctl_answer =>
      if (make_socket_nonblocking getfl_answer setfl_answer).1 then
        if decide (epoll_ctl_answer = (-1)%Z) then Some new_state
        else Some (with_fd infd new_state)
      else Some new_state
  end.

(** [while (true) { auto state = accept_connection(...); if (!state)
    break; states[state->fd] = state; }]; past the arrivals given,
    [accept] would block. *)
Fixpoint accept_loop (answers : list arrival) (m : gmap Z SocketState)
  : gmap Z SocketState :=
  match answers with
  | [] => m
  | a :: rest =>
      match accept_connection a with
      | None => m
      | Some state => accept_loop rest (<[fd_of state := state]> m)
      end
  end.

Definition finalize (fd : Z) (r : t) : t :=
  mk (delete fd (states r)) (binaryDb r) (closed r ++ [fd]).

Definition is_error (ev : Z) : bool :=
  negb (Z.land ev EPOLLERR =? 0)%Z
  || negb (Z.land ev EPOLLHUP =? 0)%Z
  || (Z.land ev (Z.lor EPOLLIN EPOLLOUT) =? 0)%Z.

(** [states.at(fd)]: an unknown descriptor throws [std::out_of_range],
    which nothing catches. *)
Definition states_at (fd : Z) (r : t) : outcome SocketState :=
  match states r !! fd with
  | Some state => Ok state
  | None => Aborted
  end.

(** [if (events[i].events & EPOLLIN) { ... }]: the loop state after it,
    and the flag [closed]. *)
Definition serve_input (ev : epoll_event) (r : t) : outcome (t * bool) :=
  let fd := data_fd ev in
  if negb (Z.land (events ev) EPOLLIN =? 0)%Z then
    match states_at fd r with
    | Ok state =>
        match process_input handler state (binaryDb r) with
        | Ok (true, state', db') =>
            Ok (mk (<[fd := state']> (states r)) db' (closed r), false)
        | Ok (false, state', db') =>
            Ok (finalize fd (mk (<[fd := state']> (states r)) db' (closed r)), true)
        | Aborted => Aborted
        | Indeterminate => Indeterminate
        end
    | Aborted => Aborted
    | Indeterminate => Indeterminate
    end
  else Ok (r, false).

(** [st.dropLogs()] *)
Definition flush (r : t) : t :=
  mk (states r)
     (BinaryPersistentHashTable.background [PersistentHashTable.Flush] (binaryDb r))
     (closed r).

(** [if (events[i].events & EPOLLOUT && !closed) { ... }] *)
Definition serve_output (ev : epoll_event) (was_closed : bool) (r : t) : outcome t :=
  let fd := data_fd ev in
  if negb (Z.land (events ev) EPOLLOUT =? 0)%Z && negb was_closed then
    match states_at fd r with
    | Ok state =>
        match process_output state with
        | (true, state') => Ok (mk (<[fd := state']> (states r)) (binaryDb r) (closed r))
        | (false, state') =>
            Ok (finalize fd (mk (<[fd := state']> (states r)) (binaryDb r) (closed r)))
        end
    | Aborted => Aborted
    | Indeterminate => Indeterminate
    end
  else Ok r.

(** The body of [for (int i = 0; i < n; ++i)]. *)
Definition serve_event (ev : epoll_event) (r : t) : outcome t :=
  let fd := data_fd ev in
  if is_error (events ev) then Ok (finalize fd r)
  else if decide (socketfd = fd) then
    Ok (mk (accept_loop (arrivals ev) (states r)) (binaryDb r) (closed r))
  else
    match serve_input ev r with
    | Ok (r1, was_closed) => serve_output ev was_closed (flush r1)
    | Aborted => Aborted
    | Indeterminate => Indeterminate
    end.

(** The events of one wake-up, in order. *)
Fixpoint serve (evs : list epoll_event) (r : t) : outcome t :=
  match evs with
  | [] => Ok r
  | ev :: rest => r' ← serve_event ev r; serve rest r'
  end.

End Reactor.

End Net.

(** ** Sequences of calls on the store *)

Module Service.

(** What the reactor thread and the snapshot thread do to the store: the
    two calls of the handlers, and the steps that reach the shared
    engine behind the store's back. *)
Inductive call : Type :=
| Call_put (key value : string)
| Call_get (key : string)
| Call_background (e : PersistentHashTable.background).

(** The store after one call (the string that [get] returns is dropped). *)
Definition apply (c : call) (s : BinaryPersistentHashTable.t)
  : outcome BinaryPersistentHashTable.t :=
  match c with
  | Call_put key value => Ok (BinaryPersistentHashTable.put key value s)
  | Call_get key => r ← BinaryPersistentHashTable.get key s; Ok r.2
  | Call_background e => Ok (BinaryPersistentHashTable.background [e] s)
  end.

Fixpoint run (cs : list call) (s : BinaryPersistentHashTable.t)
  : outcome BinaryPersistentHashTable.t :=
  match cs with
  | [] => Ok s
  | c :: cs' => s' ← apply c s; run cs' s'
  end.

End Service.

(** ** Notions used in the statements *)

(** The position indicator stands at the end of the file. *)
Definition at_eof (f : Stdio.FILE) : Prop :=
  Stdio.fpos f = N.of_nat (length (Stdio.fdata f)).


(** The number of bytes that a sequence of calls appends to the file. *)
Definition bytes_appended (cs : list Service.call) : nat :=
  foldr (λ c n, match c with
                | Service.Call_put _ value => (8 + String.length value + n)%nat
                | _ => n
                end) 0%nat cs.




(** Merging a list of entries into a map, in list order: the loop
    [db[entry.first] = entry.second] of [dropLogs] and of the constructor. *)
Abbreviation merge := (foldl (λ (m : gmap string N) (e : string * N), <[e.1 := e.2]> m)).

Definition is_digit (c : ascii) : Prop := is_Some (Text.digit_of c).

(** The number that a run of decimal digits denotes, after [acc]. *)
Definition digits_value (acc : N) (ds : list ascii) : N :=
  foldl (λ a c, 10 * a + default 0 (Text.digit_of c)) acc ds.

(** A key that [>>] reads back as it was written: not empty, and free
    of white space. *)
Definition token (k : string) : Prop :=
  k ≠ EmptyString ∧ Forall (λ c, Text.isspace c = false) (list_ascii_of_string k).

Definition entry_ok (e : string * N) : Prop := token e.1 ∧ e.2 ≤ Text.UINT64_MAX.

(** The text of the entries of a file, after the count and its space. *)
Definition entries_text (es : list (string * N)) : list ascii :=
  flat_map (λ e, list_ascii_of_string e.1 ++ [space] ++ Text.print_N e.2 ++ [space]) es.

(** A small instance of the parts that [rpc.h] supplies: a state is its
    descriptor, [process_input] hands one PUT for the key ["k"] to the
    handler, [process_output] has nothing to say. *)
Definition toy_process_input
    (handler : ascii → string → BinaryPersistentHashTable.t →
               outcome (string * BinaryPersistentHashTable.t))
    (state : Z) (db : BinaryPersistentHashTable.t)
  : outcome (bool * Z * BinaryPersistentHashTable.t) :=
  res ← handler "p"%char "k" db; Ok (true, state, res.2).

Definition toy_handler (request_type : ascii) (request : string)
    (db : BinaryPersistentHashTable.t)
  : outcome (string * BinaryPersistentHashTable.t) :=
  Ok (EmptyString, BinaryPersistentHashTable.put request "v" db).

Definition toy_serve_event :=
  Net.serve_event (-1)%Z (λ fd : Z, fd) (λ (fd : Z) (_ : Z), fd)
                  toy_process_input (λ state : Z, (true, state)) toy_handler 3%Z.

Definition toy_reactor : Net.t :=
  Net.mk (<[5%Z := 5%Z]> (<[6%Z := 6%Z]> ∅))
         (BinaryPersistentHashTable.construct false None PersistentHashTable.fresh) [].

(** The descriptors that a trace of calls opened ([socket] answered
    something else than [-1]) and the ones it closed, in order. *)
Definition opened_sockets (trace : list Net.syscall) : list Z :=
  omap (λ c, match c with
             | Net.Sys_socket fd => if decide (fd = (-1)%Z) then None else Some fd
             | _ => None
             end) trace.

Definition closed_sockets (trace : list Net.syscall) : list Z :=
  omap (λ c, match c with Net.Sys_close fd => Some fd | _ => None end) trace.

(** An address that gives no listening socket: [socket] fails for it,
    or [bind] does. *)
Definition unusable (rp : Net.addrinfo) : Prop :=
  Net.socket_answer rp = (-1)%Z ∨ Net.bind_answer rp ≠ 0%Z.

(** Every entry that is pending is in the log file: nothing is
    pending, or the log file holds exactly the pending log. *)
Definition pending_is_logged (s : PersistentHashTable.t) : Prop :=
  PersistentHashTable.pendingLog s = []
  ∨ PersistentHashTable.logs_txt s
    = Some (PersistentHashTable.write_entries (PersistentHashTable.pendingLog s)).

(** The flag [dropping] is up exactly while the snapshot thread is
    inside [dropTable]: what holds when [dropTable] has no other caller. *)
Definition flag_follows_thread (s : PersistentHashTable.t) : Prop :=
  PersistentHashTable.dropping s
  = match PersistentHashTable.dropThread s with
    | PersistentHashTable.Flagged | PersistentHashTable.Written => true
    | PersistentHashTable.Sleeping | PersistentHashTable.Checked
    | PersistentHashTable.Finished => false
    end.

(** The events of the program as [main] wires it: [put], the flush of the
    reactor loop, and steps of the snapshot thread. *)
Definition wired (e : PersistentHashTable.event) : Prop :=
  match e with
  | PersistentHashTable.Put _ _ => True
  | PersistentHashTable.Bg PersistentHashTable.Flush => True
  | PersistentHashTable.Bg PersistentHashTable.Dropper => True
  | PersistentHashTable.Bg _ => False
  end.

(** * Properties of the index engine *)

Section Engine.

Import PersistentHashTable.

Implicit Types (s : t) (key k : string) (log : list (string * N)).

Lemma scan_back_app_le key log log' (i : nat) :
  (i ≤ length log)%nat →
  scan_back key i (log ++ log') = scan_back key i log.
Proof.
  induction i as [|j IH]; intros Hi; [reflexivity|].
  cbn [scan_back]. rewrite lookup_app_l by lia.
  rewrite IH by lia. reflexivity.
Qed.

Lemma scan_back_snoc key log k v :
  scan_back key (length (log ++ [(k, v)])) (log ++ [(k, v)])
  = if decide (k = key) then Some v else scan_back key (length log) log.
Proof.
  rewrite length_app, Nat.add_1_r. cbn [scan_back length].
  rewrite list_lookup_middle by reflexivity.
  destruct (decide (k = key)); [reflexivity|].
  apply scan_back_app_le. lia.
Qed.

Lemma foldl_insert_snoc (m : gmap string N) log k v :
  merge m (log ++ [(k, v)]) = <[k := v]> (merge m log).
Proof. rewrite foldl_app. reflexivity. Qed.

(** Merging a log into a map gives, key by key, what [get] finds by
    scanning the log backwards before it falls back to the map. *)
Lemma lookup_merge (m : gmap string N) log key :
  merge m log !! key
  = match scan_back key (length log) log with
    | Some v => Some v
    | None => m !! key
    end.
Proof.
  induction log as [|[k v] log IH] using rev_ind; [reflexivity|].
  rewrite foldl_insert_snoc, scan_back_snoc.
  destruct (decide (k = key)) as [->|Hne].
  - apply lookup_insert_eq.
  - rewrite lookup_insert_ne by done. apply IH.
Qed.

Lemma get_put_eq key v s : get key (put key v s) = Some v.
Proof.
  unfold get, put; cbn. rewrite scan_back_snoc.
  rewrite decide_True by reflexivity. reflexivity.
Qed.


Lemma get_dropLogs key s : get key (dropLogs s) = get key s.
Proof.
  unfold get, dropLogs. destruct (dropping s); cbn; [reflexivity|].
  apply lookup_merge.
Qed.


Lemma get_dropper_step key s : get key (dropper_step s) = get key s.
Proof.
  unfold dropper_step.
  destruct (dropThread s); try reflexivity.
  destruct (cancelThread s); reflexivity.
Qed.

Lemma get_step key e s : get key (step e s) = get key s.
Proof.
  destruct e; [apply get_dropLogs | apply get_dropper_step | reflexivity..].
Qed.

Lemma run_snoc es e s : run (es ++ [e]) s = step e (run es s).
Proof. unfold run. rewrite foldl_app. reflexivity. Qed.

Lemma get_run key es s : get key (run es s) = get key s.
Proof.
  induction es as [|e es IH] using rev_ind; [reflexivity|].
  rewrite run_snoc, get_step. apply IH.
Qed.


Lemma exec_snoc es e s : exec (es ++ [e]) s = exec1 e (exec es s).
Proof. unfold exec. rewrite foldl_app. reflexivity. Qed.

Lemma dropping_put key v s : dropping (put key v s) = dropping s.
Proof. reflexivity. Qed.

Lemma dropLogs_dropping s :
  dropping s = true →
  dropLogs s = mk (pendingLog s) (db s) (dropping s) (cancelThread s)
                  (dropThread s) (Some (write_entries (pendingLog s))) (db_txt s).
Proof. intros H. unfold dropLogs. rewrite H. reflexivity. Qed.

(** One step taken while the flag is up leaves the map alone and only
    ever appends to the pending log. *)
Lemma exec1_dropping e s :
  dropping s = true →
  db (exec1 e s) = db s ∧ pendingLog s `prefix_of` pendingLog (exec1 e s).
Proof.
  intros H. destruct e as [key value|[| | | |]]; cbn; try done.
  - rewrite H. split; [reflexivity|]. by apply prefix_app_r.
  - rewrite dropLogs_dropping by done. done.
  - unfold dropper_step.
    destruct (dropThread s); [destruct (cancelThread s)|..]; done.
Qed.

(** C3. Invariant I2: while [dropping] is true, [put] appends to
    [pendingLog] and leaves [db] untouched; [dropLogs] rewrites the log
    file and neither changes [db] nor clears [pendingLog]; and along any
    sequence of puts, flushes and steps of the snapshot thread during
    which the flag stays up, [db] stays what it was and every pending
    entry stays pending. *)
Theorem no_merge_while_dropping s :
  dropping s = true →
  (∀ key value,
     db (put key value s) = db s
     ∧ pendingLog (put key value s) = pendingLog s ++ [(key, value)])
  ∧ (db (dropLogs s) = db s
     ∧ pendingLog (dropLogs s) = pendingLog s
     ∧ logs_txt (dropLogs s) = Some (write_entries (pendingLog s)))
  ∧ (∀ es : list event,
       (∀ n : nat, dropping (exec (take n es) s) = true) →
       db (exec es s) = db s ∧ pendingLog s `prefix_of` pendingLog (exec es s)).
Proof.
  intros H. split; [|split].
  - intros key value. unfold put; cbn. rewrite H. done.
  - rewrite dropLogs_dropping by done. done.
  - induction es as [|e es IH] using rev_ind; intros Hall; [done|].
    rewrite exec_snoc.
    assert (Hes : ∀ n : nat, dropping (exec (take n es) s) = true).
    { intros n. specialize (Hall (n `min` length es)%nat).
      rewrite take_app_le in Hall by lia.
      destruct (decide (n ≤ length es)%nat).
      - by rewrite Nat.min_l in Hall by lia.
      - rewrite Nat.min_r in Hall by lia.
        rewrite take_ge by lia. by rewrite firstn_all in Hall. }
    destruct (IH Hes) as [Hdb Hpre].
    assert (Hlast : dropping (exec es s) = true).
    { specialize (Hes (length es)). by rewrite firstn_all in Hes. }
    destruct (exec1_dropping e _ Hlast) as [Hdb' Hpre'].
    split; [congruence|]. by etrans.
Qed.

Lemma no_merge_while_dropping_witness :
  let s := dropper_step (dropper_step fresh) in
  let es := [Put "k" 7; Bg Flush] in
  dropping s = true
  ∧ db (exec es s) = db s
  ∧ pendingLog s `prefix_of` pendingLog (exec es s).
Proof.
  intros s es. split; [reflexivity|].
  apply (proj2 (proj2 (no_merge_while_dropping s eq_refl)) es).
  intros [|[|[|n]]]; reflexivity.
Defined.



End Engine.

(** * Reading back what was written *)

Section TextRoundTrip.

Import Text.

Lemma digit_of_digit_char d : d < 10 → digit_of (digit_char d) = Some d.
Proof.
  intros Hd. unfold digit_of, digit_char.
  rewrite N_ascii_embedding by lia.
  replace (48 <=? 48 + d) with true by (symmetry; apply N.leb_le; lia).
  replace (48 + d <=? 57) with true by (symmetry; apply N.leb_le; lia).
  cbn. f_equal. lia.
Qed.

Lemma is_digit_bounds c : is_digit c → 48 ≤ N_of_ascii c ≤ 57.
Proof.
  unfold is_digit, digit_of. intros [d Hd].
  destruct (48 <=? N_of_ascii c) eqn:H1; [|done].
  destruct (N_of_ascii c <=? 57) eqn:H2; [|done].
  apply N.leb_le in H1. apply N.leb_le in H2. done.
Qed.

Lemma is_digit_not_space c : is_digit c → isspace c = false.
Proof.
  intros H%is_digit_bounds. unfold isspace.
  apply orb_false_iff. split.
  - apply N.eqb_neq. lia.
  - apply andb_false_iff. right. apply N.leb_gt. lia.
Qed.

Lemma digits_acc_app a ds r :
  Forall is_digit ds →
  digits_acc a (ds ++ r) = digits_acc (digits_value a ds) r.
Proof.
  intros Hds. revert a. induction Hds as [|c ds [d Hd] _ IH]; intros a; [done|].
  cbn. rewrite Hd. cbn. apply IH.
Qed.

Lemma digits_acc_stop a r : starts_with_digit r = false → digits_acc a r = (a, r).
Proof.
  destruct r as [|c r]; [done|]. cbn.
  destruct (digit_of c); done.
Qed.

Lemma digits_value_snoc a ds c :
  digits_value a (ds ++ [c]) = 10 * digits_value a ds + default 0 (digit_of c).
Proof. unfold digits_value. rewrite foldl_app. reflexivity. Qed.

Lemma print_digits_spec (fuel : nat) : ∀ n acc,
  n < 10 ^ N.of_nat fuel →
  fuel ≠ 0%nat →
  ∃ ds, print_digits fuel n acc = ds ++ acc
        ∧ ds ≠ [] ∧ Forall is_digit ds ∧ digits_value 0 ds = n.
Proof.
  induction fuel as [|f IH]; intros n acc Hn Hf; [done|].
  cbn [print_digits].
  assert (Hmod : n `mod` 10 < 10) by (apply N.mod_lt; lia).
  assert (Hdig : is_digit (digit_char (n `mod` 10))).
  { unfold is_digit. rewrite digit_of_digit_char by done. by eexists. }
  destruct (n / 10 =? 0) eqn:Hq.
  - apply N.eqb_eq in Hq. exists [digit_char (n `mod` 10)].
    split; [done|]. split; [done|]. split; [by constructor|].
    cbn. rewrite digit_of_digit_char by done. cbn.
    pose proof (N.div_mod n 10). lia.
  - apply N.eqb_neq in Hq.
    assert (Hf' : f ≠ 0%nat).
    { intros ->. apply Hq. apply N.div_small. cbn in Hn. lia. }
    assert (Hn' : n / 10 < 10 ^ N.of_nat f).
    { apply N.Div0.div_lt_upper_bound.
      rewrite Nat2N.inj_succ, N.pow_succ_r' in Hn. lia. }
    destruct (IH (n / 10) (digit_char (n `mod` 10) :: acc) Hn' Hf')
      as (ds & Hds & _ & Hall & Hval).
    exists (ds ++ [digit_char (n `mod` 10)]).
    split; [by rewrite Hds, <- app_assoc|].
    split; [by destruct ds|].
    split; [apply Forall_app; split; [done | by constructor]|].
    rewrite digits_value_snoc, Hval, digit_of_digit_char by done. cbn.
    pose proof (N.div_mod n 10). lia.
Qed.

Lemma size_nat_bound n : n < 10 ^ N.of_nat (S (N.size_nat n)).
Proof.
  assert (H : n < 2 ^ N.of_nat (N.size_nat n)).
  { destruct n as [|p]; [done|]. cbn [N.size_nat].
    induction p as [p IH|p IH|]; cbn [Pos.size_nat].
    - rewrite Nat2N.inj_succ, N.pow_succ_r'. lia.
    - rewrite Nat2N.inj_succ, N.pow_succ_r'. lia.
    - done. }
  eapply N.lt_le_trans; [exact H|].
  etrans; [apply (N.pow_le_mono_l 2 10); lia|].
  apply N.pow_le_mono_r; lia.
Qed.

Lemma print_N_spec n :
  ∃ c ds, print_N n = c :: ds
          ∧ Forall is_digit (c :: ds) ∧ digits_value 0 (c :: ds) = n.
Proof.
  destruct (print_digits_spec (S (N.size_nat n)) n [] (size_nat_bound n))
    as (ds & Hds & Hne & Hall & Hval); [done|].
  rewrite app_nil_r in Hds. destruct ds as [|c ds]; [done|].
  by exists c, ds.
Qed.

Lemma space_is_space : isspace space = true.
Proof. reflexivity. Qed.

Lemma space_not_digit : digit_of space = None.
Proof. reflexivity. Qed.


Lemma skipws_digits c ds r :
  is_digit c → skipws (c :: ds ++ r) = c :: ds ++ r.
Proof. intros H. cbn. by rewrite is_digit_not_space. Qed.

Lemma extract_number_print n r :
  starts_with_digit r = false →
  extract_number (print_N n ++ r) = (Some (false, n), r).
Proof.
  intros Hr. destruct (print_N_spec n) as (c & ds & Hp & Hall & Hval).
  rewrite Hp. unfold extract_number.
  pose proof (Forall_inv Hall) as Hc.
  pose proof (is_digit_bounds c Hc) as Hb.
  cbn [app].
  replace (N_of_ascii c =? 45) with false by (symmetry; apply N.eqb_neq; lia).
  replace (N_of_ascii c =? 43) with false by (symmetry; apply N.eqb_neq; lia).
  unfold starts_with_digit at 1. destruct Hc as [d Hd]. rewrite Hd.
  change (c :: ds ++ r) with ((c :: ds) ++ r).
  rewrite digits_acc_app by done. rewrite Hval.
  by rewrite digits_acc_stop.
Qed.

Lemma skipws_print n r : skipws (print_N n ++ r) = print_N n ++ r.
Proof.
  destruct (print_N_spec n) as (c & ds & Hp & Hall & _).
  rewrite Hp. apply skipws_digits. by apply Forall_inv in Hall.
Qed.

Lemma print_N_cons n r : ∃ c t, print_N n ++ r = c :: t.
Proof.
  destruct (print_N_spec n) as (c & ds & Hp & _). rewrite Hp. by eexists _, _.
Qed.

Lemma extract_uint64_written v r :
  v ≤ UINT64_MAX →
  extract_uint64 (still_good (space :: print_N v ++ space :: r))
  = (Some v, still_good (space :: r)).
Proof.
  intros Hv. unfold extract_uint64. cbn [failbit still_good rest].
  cbn [skipws]. rewrite space_is_space, skipws_print.
  destruct (print_N_cons v (space :: r)) as (c & t & Heq).
  pose proof (extract_number_print v (space :: r) eq_refl) as Hnum.
  rewrite Heq in Hnum |- *. cbv beta iota. rewrite Hnum.
  replace (UINT64_MAX <? v) with false by (symmetry; apply N.ltb_ge; done).
  done.
Qed.

Lemma extract_int_written n r :
  (Z.of_N n ≤ INT_MAX)%Z →
  extract_int (opened (print_N n ++ space :: r))
  = (Some (Z.of_N n), still_good (space :: r)).
Proof.
  intros Hn. unfold extract_int. cbn [failbit opened rest].
  rewrite skipws_print.
  destruct (print_N_cons n (space :: r)) as (c & t & Heq).
  pose proof (extract_number_print n (space :: r) eq_refl) as Hnum.
  rewrite Heq in Hnum |- *. cbv beta iota. rewrite Hnum.
  replace (Z.of_N n <? INT_MIN)%Z with false
    by (symmetry; apply Z.ltb_ge; unfold INT_MIN; lia).
  replace (INT_MAX <? Z.of_N n)%Z with false by (symmetry; apply Z.ltb_ge; done).
  done.
Qed.

Lemma take_token_written tok r :
  Forall (λ c, isspace c = false) tok →
  take_token (tok ++ space :: r) = (tok, space :: r).
Proof.
  induction 1 as [|c tok Hc _ IH]; [reflexivity|].
  cbn [app take_token]. by rewrite Hc, IH.
Qed.

Lemma extract_string_written k r :
  token k →
  extract_string (still_good (space :: list_ascii_of_string k ++ space :: r))
  = (k, still_good (space :: r)).
Proof.
  intros [Hne Hall]. unfold extract_string. cbn [failbit still_good rest].
  cbn [skipws]. rewrite space_is_space.
  destruct (list_ascii_of_string k) as [|c tok] eqn:Hk.
  { exfalso. apply Hne. rewrite <- (string_of_list_ascii_of_string k), Hk. done. }
  cbn [app skipws]. rewrite (Forall_inv Hall).
  change (c :: tok ++ space :: r) with ((c :: tok) ++ space :: r).
  rewrite take_token_written by done.
  by rewrite <- Hk, string_of_list_ascii_of_string.
Qed.

Lemma readFromFile_written k v r :
  entry_ok (k, v) →
  readFromFile (still_good (space :: entries_text ((k, v) :: r)))
  = ((k, Some v), still_good (space :: entries_text r)).
Proof.
  intros [Hk Hv]. unfold readFromFile, entries_text. cbn [flat_map fst snd].
  rewrite <- !app_assoc. cbn [app].
  rewrite extract_string_written by done.
  by rewrite extract_uint64_written by done.
Qed.



End TextRoundTrip.

(** * Restart: what the constructor rebuilds from the two files *)

Section Recovery.

Import PersistentHashTable.









(** C2. Recovery round-trip, evaluated where it fails: one key
    ["x 7 y"] written at offset 5, a snapshot, one more key ["k"] at
    offset 9, a clean shutdown and a restart. Before the restart the
    engine maps ["x 7 y"] to 5 and ["k"] to 9 and knows no other key; the
    constructor, which cuts the files at white space, rebuilds a map
    where ["x 7 y"] and ["k"] are absent, ["x"] is at 7 and ["y"] at 5. *)
Theorem recovery_misreads_key_with_space :
  let s := puts [("k", 9)] (dropTable (puts [("x 7 y", 5)] fresh)) in
  (get "x 7 y" s = Some 5 ∧ get "k" s = Some 9 ∧ get "x" s = None ∧ get "y" s = None)
  ∧ db_txt (destroy s) = Some (list_ascii_of_string "1 x 7 y 5 ")
  ∧ logs_txt (destroy s) = Some (list_ascii_of_string "2 x 7 y 5 k 9 ")
  ∧ recovered_get "x 7 y" (destroy s) = Ok None
  ∧ recovered_get "k" (destroy s) = Ok None
  ∧ recovered_get "x" (destroy s) = Ok (Some 7)
  ∧ recovered_get "y" (destroy s) = Ok (Some 5).
Proof. vm_compute. repeat split; reflexivity. Qed.

Lemma write_entries_nil : write_entries [] = list_ascii_of_string "0 ".
Proof. reflexivity. Qed.

Lemma load_empty_log (m : gmap string N) :
  load (Some (list_ascii_of_string "0 ")) m = Ok m.
Proof. reflexivity. Qed.

Lemma dropLogs_nil s :
  pendingLog s = [] →
  dropLogs s = mk [] (db s) (dropping s) (cancelThread s) (dropThread s)
                  (Some (list_ascii_of_string "0 ")) (db_txt s).
Proof.
  intros H. unfold dropLogs. rewrite H, write_entries_nil.
  by destruct (dropping s).
Qed.

(** C5, as stated, fails: after [put "a" 1] and a flush the pending log
    is empty and a restart would recover ["a"]; one more flush, of the
    empty pending log, rewrites the log file, and a restart recovers
    nothing. *)
Lemma empty_flush_changes_what_restart_recovers :
  let s := dropLogs (put "a" 1 fresh) in
  pendingLog s = []
  ∧ logs_txt s = Some (list_ascii_of_string "1 a 1 ")
  ∧ recovered_get "a" s = Ok (Some 1)
  ∧ logs_txt (dropLogs s) = Some (list_ascii_of_string "0 ")
  ∧ recovered_get "a" (dropLogs s) = Ok None
  ∧ logs_txt (dropLogs s) ≠ logs_txt s
  ∧ recovered_get "a" (dropLogs s) ≠ recovered_get "a" s.
Proof. vm_compute. repeat split; (reflexivity || discriminate). Qed.

(** C5, amended. [dropLogs] on an empty pending log changes no answer
    of [get], leaves [db], [pendingLog], the flags, the thread and the
    snapshot file as they were, and cannot fail; it rewrites the log file
    to the empty log, so nothing at all changes when the log file already
    was the empty log. *)
Theorem flush_of_empty_log s :
  pendingLog s = [] →
  (∀ key, get key (dropLogs s) = get key s)
  ∧ db (dropLogs s) = db s
  ∧ pendingLog (dropLogs s) = pendingLog s
  ∧ dropping (dropLogs s) = dropping s
  ∧ cancelThread (dropLogs s) = cancelThread s
  ∧ dropThread (dropLogs s) = dropThread s
  ∧ db_txt (dropLogs s) = db_txt s
  ∧ logs_txt (dropLogs s) = Some (list_ascii_of_string "0 ")
  ∧ (logs_txt s = Some (list_ascii_of_string "0 ") → dropLogs s = s).
Proof.
  intros H. split; [intros key; apply get_dropLogs|].
  rewrite dropLogs_nil by done. cbn [db pendingLog dropping cancelThread
    dropThread db_txt logs_txt].
  repeat split; try done.
  intros Hlog. destruct s; cbn in *; by subst.
Qed.

Lemma flush_of_empty_log_witness :
  let s := dropLogs (put "a" 1 fresh) in
  pendingLog s = []
  ∧ db (dropLogs s) = db s
  ∧ logs_txt (dropLogs s) = Some (list_ascii_of_string "0 ")
  ∧ dropLogs (dropLogs s) = dropLogs s.
Proof.
  intros s.
  pose proof (flush_of_empty_log s eq_refl) as (_ & H1 & _ & _ & _ & _ & _ & H2 & _).
  pose proof (flush_of_empty_log (dropLogs s) eq_refl) as (_ & _ & _ & _ & _ & _ & _ & _ & H3).
  exact (conj eq_refl (conj H1 (conj H2 (H3 eq_refl)))).
Defined.

(** What the destructor does, from any state: the flag [cancelThread]
    is set, the thread has returned, and the log file holds what was
    pending. *)
Lemma destroy_spec s :
  cancelThread (destroy s) = true
  ∧ dropThread (destroy s) = Finished
  ∧ logs_txt (destroy s) = Some (write_entries (pendingLog s)).
Proof.
  destruct s as [pending m flag cancel [| | | |] logs snap]; destruct flag;
    repeat split; reflexivity.
Qed.

(** C8. Graceful-shutdown durability, evaluated where it fails: a
    [put "a" 1] that the reactor has flushed once (so that it is merged
    into [db] and no longer pending) and then the destructor. The
    destructor's flush truncates the log file to the empty log, no
    snapshot was ever written, and the restart finds no entry for ["a"]. *)
Theorem shutdown_loses_flushed_write :
  let s := dropLogs (put "a" 1 fresh) in
  get "a" s = Some 1
  ∧ logs_txt s = Some (list_ascii_of_string "1 a 1 ")
  ∧ cancelThread (destroy s) = true
  ∧ dropThread (destroy s) = Finished
  ∧ logs_txt (destroy s) = Some (list_ascii_of_string "0 ")
  ∧ db_txt (destroy s) = None
  ∧ recovered_get "a" (destroy s) = Ok None.
Proof. vm_compute. repeat split; reflexivity. Qed.

End Recovery.

(** * The value file *)

Section ValueStore.

Import Stdio BinaryPersistentHashTable.

Lemma length_list_ascii_of_string (v : string) :
  length (list_ascii_of_string v) = String.length v.
Proof. induction v as [|c v IH]; cbn; by rewrite ?IH. Qed.

Lemma length_le_bytes w v : length (le_bytes w v) = w.
Proof. revert v. induction w as [|w IH]; intros v; cbn; by rewrite ?IH. Qed.

Lemma le_value_le_bytes w v : le_value (le_bytes w v) = v `mod` 256 ^ N.of_nat w.
Proof.
  revert v. induction w as [|w IH]; intros v.
  - cbn. by rewrite N.mod_1_r.
  - cbn [le_bytes le_value]. rewrite IH.
    rewrite N_ascii_embedding by (apply N.mod_lt; lia).
    rewrite Nat2N.inj_succ, N.pow_succ_r'.
    by rewrite N.Div0.mod_mul_r.
Qed.

Lemma le_value_le_bytes_8 v : v < 2 ^ 64 → le_value (le_bytes 8 v) = v.
Proof. intros Hv. rewrite le_value_le_bytes. by apply N.mod_small. Qed.

(** What [put] writes and tells, from every state of the stream. *)
Lemma append_spec value f :
  append value f
  = (fpos f,
     let data := fdata f ++ le_bytes 8 (N.of_nat (String.length value))
                         ++ list_ascii_of_string value in
     {| fdata := data; fpos := N.of_nat (length data) |}).
Proof.
  unfold append, fwrite, ftell; cbn [fdata fpos].
  rewrite Nat2N.id, take_ge by (by rewrite length_list_ascii_of_string).
  by rewrite <- !app_assoc.
Qed.

Lemma append_at_eof value f : at_eof (append value f).2.
Proof. by rewrite append_spec. Qed.

(** Reading at the offset of an intact record returns its payload and
    leaves the stream at the end of the file. *)
Lemma read_at_record pre payload post f offset :
  fdata f = pre ++ le_bytes 8 (N.of_nat (length payload)) ++ payload ++ post →
  offset = N.of_nat (length pre) →
  offset < 2 ^ 63 →
  N.of_nat (length payload) < 2 ^ 64 →
  read_at offset f
  = Ok (string_of_list_ascii payload,
        {| fdata := fdata f; fpos := N.of_nat (length (fdata f)) |}).
Proof.
  intros Hdata -> Hoff Hsz. unfold read_at, fseek_set.
  replace (N.of_nat (length pre) <? 2 ^ 63) with true
    by (symmetry; by apply N.ltb_lt).
  unfold fread; cbn [fdata fpos]. rewrite Hdata, Nat2N.id.
  rewrite drop_app_length.
  rewrite take_app_length' by (by rewrite length_le_bytes).
  rewrite length_le_bytes, decide_True by done.
  rewrite le_value_le_bytes_8 by done.
  replace (N.to_nat (N.of_nat (length pre) + N.of_nat 8))
    with (length pre + 8)%nat by lia.
  rewrite drop_app_add, drop_app_length' by (by rewrite length_le_bytes).
  rewrite Nat2N.id, take_app_length, Nat.sub_diag. cbn [replicate].
  by rewrite app_nil_r.
Qed.


Lemma at_eof_opened_at_end content tbl : at_eof (f (construct true content tbl)).
Proof. done. Qed.



(** C6, evaluated where it fails. The value file holds one record
    from an earlier run (nine bytes: length 1, payload ["o"]); the
    constructor reopens it with the position indicator at the beginning,
    as glibc does for ["ab+"]; the first call is [put "k" "hello"]. The
    record is appended at byte 9, but the offset handed to the engine is
    0, and [get "k"] reads the old record. *)
Theorem put_after_reopen_tells_offset_zero :
  let old := le_bytes 8 1 ++ list_ascii_of_string "o" in
  let s := construct false (Some old) PersistentHashTable.fresh in
  let s' := put "k" "hello" s in
  length old = 9%nat
  ∧ fdata (f s') = old ++ le_bytes 8 5 ++ list_ascii_of_string "hello"
  ∧ PersistentHashTable.get "k" (table s') = Some 0
  ∧ get "k" s' = Ok ("o", mk (table s') (fseek_end (f s'))).
Proof. vm_compute. repeat split; reflexivity. Qed.

(** Reading at the offset that [append] told returns what was appended. *)
Lemma read_at_append value file :
  at_eof file →
  N.of_nat (length (fdata file)) < 2 ^ 63 →
  N.of_nat (String.length value) < 2 ^ 64 →
  read_at (append value file).1 (append value file).2
  = Ok (value, (append value file).2).
Proof.
  intros Heof Hfile Hsz. rewrite append_spec. cbn [fst snd].
  rewrite (read_at_record (fdata file) (list_ascii_of_string value) []).
  - by rewrite string_of_list_ascii_of_string.
  - cbn [fdata]. by rewrite app_nil_r, length_list_ascii_of_string.
  - done.
  - by rewrite <- Heof in Hfile.
  - by rewrite length_list_ascii_of_string.
Qed.

(** The first [put] after a reopening, for every key and payload. The
    value file holds one record from an earlier run (length 1, payload
    ["o"]) and the constructor has reopened it with the position
    indicator at the beginning, as glibc does for ["ab+"]. [ftell] tells
    0, the engine records 0 for the key, and [get] reads the old record. *)
Lemma get_put_after_reopen (key value : string) :
  let old := le_bytes 8 1 ++ list_ascii_of_string "o" in
  let s := construct false (Some old) PersistentHashTable.fresh in
  let s' := put key value s in
  (append value (f s)).1 = 0
  ∧ PersistentHashTable.get key (table s') = Some 0
  ∧ read_at 0 (f s') = Ok ("o"%string, fseek_end (f s'))
  ∧ get key s' = Ok ("o"%string, mk (table s') (fseek_end (f s'))).
Proof.
  intros old s s'.
  assert (Hread : read_at 0 (f s') = Ok ("o"%string, fseek_end (f s'))).
  { unfold s', put. rewrite append_spec. cbn [f].
    rewrite (read_at_record [] (list_ascii_of_string "o")
               (le_bytes 8 (N.of_nat (String.length value)) ++ list_ascii_of_string value));
      reflexivity. }
  assert (Hoff : PersistentHashTable.get key (table s') = Some 0).
  { unfold s', put. rewrite append_spec. cbn [table]. apply get_put_eq. }
  split; [by rewrite append_spec|]. split; [done|]. split; [done|].
  unfold get. rewrite Hoff, Hread. done.
Qed.

(** C7, evaluated where it fails. On the value file of an earlier run
    (one record, payload ["o"]), reopened as glibc reopens it, the round
    trip fails for every payload: reading at the offset that the append
    told returns ["o"], and so does [get key] after [put key value], for
    ["hello"] and for the empty payload alike; the payload itself stands
    in the file from byte 9 on. *)
Theorem value_round_trip_fails_after_reopen (key value : string) :
  let old := le_bytes 8 1 ++ list_ascii_of_string "o" in
  let s := construct false (Some old) PersistentHashTable.fresh in
  let s' := put key value s in
  fdata (f s') = old ++ le_bytes 8 (N.of_nat (String.length value))
                     ++ list_ascii_of_string value
  ∧ read_at (append value (f s)).1 (append value (f s)).2
    = Ok ("o"%string, fseek_end (f s'))
  ∧ get key s' = Ok ("o"%string, mk (table s') (fseek_end (f s')))
  ∧ get "k" (put "k" "hello" s) ≠ Ok ("hello"%string, put "k" "hello" s)
  ∧ get "k" (put "k" "" s) ≠ Ok (EmptyString, put "k" "" s).
Proof.
  intros old s s'.
  destruct (get_put_after_reopen key value) as (_ & _ & Hread & Hget).
  assert (Hoff : (append value (f s)).1 = 0) by (by rewrite append_spec).
  assert (Hfile : f s' = (append value (f s)).2)
    by (unfold s', put; by destruct (append value (f s))).
  split; [unfold s', put; by rewrite append_spec|].
  split; [rewrite Hoff, <- Hfile; exact Hread|].
  split; [exact Hget|].
  split.
  - intros H. pose proof (get_put_after_reopen "k" "hello") as (_ & _ & _ & H').
    cbv zeta in H'. unfold s, old in H. rewrite H' in H. discriminate.
  - intros H. pose proof (get_put_after_reopen "k" "") as (_ & _ & _ & H').
    cbv zeta in H'. unfold s, old in H. rewrite H' in H. discriminate.
Qed.

(** Value round-trip from a stream that stands at the end of its file
    (a new file; any file after a [put] or a found [get]): for every
    payload, the empty one included, reading at the offset that the
    append told returns the payload, and so [get key] after
    [put key value] returns [value] and leaves the store as [put] left
    it. File and payload are of sizes that [long] and [uint64_t] can
    hold. *)
Theorem value_round_trip (key value : string) (s : t) :
  at_eof (f s) →
  N.of_nat (length (fdata (f s))) < 2 ^ 63 →
  N.of_nat (String.length value) < 2 ^ 64 →
  read_at (append value (f s)).1 (append value (f s)).2
  = Ok (value, (append value (f s)).2)
  ∧ get key (put key value s) = Ok (value, put key value s).
Proof.
  intros Heof Hfile Hsz.
  pose proof (read_at_append value (f s) Heof Hfile Hsz) as Hread.
  split; [done|].
  unfold get, put. destruct (append value (f s)) as [offset f'] eqn:Happ.
  cbn [table f fst snd] in *. rewrite get_put_eq, Hread. done.
Qed.

Lemma value_round_trip_witness :
  let s := construct false None PersistentHashTable.fresh in
  get "k" (put "k" "" s) = Ok (EmptyString, put "k" "" s)
  ∧ get "k" (put "k" "hello" s) = Ok ("hello", put "k" "hello" s).
Proof.
  intros s. split.
  - apply (value_round_trip "k" "" s); [reflexivity | reflexivity | reflexivity].
  - apply (value_round_trip "k" "hello" s); [reflexivity | reflexivity | reflexivity].
Defined.

Lemma get_absent key s :
  PersistentHashTable.get key (table s) = None → get key s = Ok (EmptyString, s).
Proof. intros H. unfold get. by rewrite H. Qed.

Lemma get_stored_empty key es s :
  at_eof (f s) →
  N.of_nat (length (fdata (f s))) < 2 ^ 63 →
  let s1 := background es (put key "" s) in
  get key s1 = Ok (EmptyString, s1).
Proof.
  intros Heof Hfile s1.
  pose proof (read_at_append "" (f s) Heof Hfile eq_refl) as Hread.
  unfold s1, background, get, put in *.
  destruct (append "" (f s)) as [offset f'] eqn:Happ.
  cbn [table f fst snd] in *. rewrite get_run, get_put_eq, Hread. done.
Qed.

End ValueStore.

(** * The request handlers *)

Section Requests.

Import Stdio BinaryPersistentHashTable Server.

Variable parse_get : string → option TGetRequest.
Variable parse_put : string → option TPutRequest.
Variable encode_get : TGetResponse → string.
Variable encode_put : TPutResponse → string.
Variables PUT_REQUEST GET_REQUEST : ascii.

(** C9. A request that fails to decode, evaluated: [handle_get] and
    [handle_put] call [abort()], and so does [handler] for either
    message type; no response is produced and no state is left in which
    another connection could be served. *)
Theorem malformed_request_aborts (request : string) (binaryDb : t) :
  (parse_get request = None →
   handle_get parse_get encode_get request binaryDb = Aborted
   ∧ (GET_REQUEST ≠ PUT_REQUEST →
      handler parse_get parse_put encode_get encode_put PUT_REQUEST GET_REQUEST
              GET_REQUEST request binaryDb = Aborted))
  ∧ (parse_put request = None →
     handle_put parse_put encode_put request binaryDb = Aborted
     ∧ handler parse_get parse_put encode_get encode_put PUT_REQUEST GET_REQUEST
               PUT_REQUEST request binaryDb = Aborted).
Proof.
  split; intros Hparse.
  - assert (H : handle_get parse_get encode_get request binaryDb = Aborted).
    { unfold handle_get. by rewrite Hparse. }
    split; [done|]. intros Hne. unfold handler.
    rewrite decide_False by done. by rewrite decide_True by done.
  - assert (H : handle_put parse_put encode_put request binaryDb = Aborted).
    { unfold handle_put. by rewrite Hparse. }
    split; [done|]. unfold handler. by rewrite decide_True by done.
Qed.

(** C10, evaluated where it fails. On the value file of an earlier run
    (one record, payload ["o"]), reopened as glibc reopens it, a key
    that was never written and a key just stored with the empty value
    are told apart: for the first [get] returns the empty string and the
    GET response has no value field; for the second the engine has
    recorded offset 0, [get] returns ["o"], and the GET response carries
    the value field ["o"]. *)
Theorem empty_value_told_from_absent_after_reopen (request : string) (id : N)
    (key : string) :
  parse_get request = Some {| get_request_id := id; get_key := key |} →
  let old := le_bytes 8 1 ++ list_ascii_of_string "o" in
  let s := construct false (Some old) PersistentHashTable.fresh in
  let s1 := put key "" s in
  (get key s = Ok (EmptyString, s)
   ∧ handle_get parse_get encode_get request s
     = Ok (encode_get {| get_response_id := id; get_response_offset := None |}, s))
  ∧ (PersistentHashTable.get key (table s1) = Some 0
     ∧ get key s1 = Ok ("o"%string, mk (table s1) (fseek_end (f s1)))
     ∧ handle_get parse_get encode_get request s1
       = Ok (encode_get {| get_response_id := id; get_response_offset := Some "o"%string |},
             mk (table s1) (fseek_end (f s1)))).
Proof.
  intros Hparse old s s1. split.
  - assert (Hget : get key s = Ok (EmptyString, s)) by (by apply get_absent).
    split; [done|]. unfold handle_get. rewrite Hparse. cbn [get_key get_request_id].
    rewrite Hget. done.
  - destruct (get_put_after_reopen key "") as (_ & Hoff & _ & Hget).
    cbv zeta in Hoff, Hget. fold old in Hoff, Hget. fold s in Hoff, Hget.
    fold s1 in Hoff, Hget.
    split; [done|]. split; [done|].
    unfold handle_get. rewrite Hparse. cbn [get_key get_request_id].
    rewrite Hget. done.
Qed.

(** From a stream that stands at the end of its file, a key whose
    stored value is the empty string, and a key that was never written,
    look the same: [get] returns the empty string in both cases, and
    [handle_get] answers with the same message, the request id and no
    value field. The empty value may have been flushed and snapshotted
    in between. *)
Theorem empty_value_looks_absent (request : string) (id : N) (key : string)
    (s : t) (es : list PersistentHashTable.background) :
  parse_get request = Some {| get_request_id := id; get_key := key |} →
  at_eof (f s) →
  N.of_nat (length (fdata (f s))) < 2 ^ 63 →
  let absent := {| get_response_id := id; get_response_offset := None |} in
  (PersistentHashTable.get key (table s) = None →
   get key s = Ok (EmptyString, s)
   ∧ handle_get parse_get encode_get request s = Ok (encode_get absent, s))
  ∧ (let s1 := background es (put key "" s) in
     get key s1 = Ok (EmptyString, s1)
     ∧ handle_get parse_get encode_get request s1 = Ok (encode_get absent, s1)).
Proof.
  intros Hparse Heof Hfile absent. split.
  - intros Hnone. pose proof (get_absent key s Hnone) as Hget.
    split; [done|]. unfold handle_get. rewrite Hparse. cbn [get_key get_request_id].
    rewrite Hget. done.
  - intros s1. pose proof (get_stored_empty key es s Heof Hfile) as Hget.
    split; [done|]. unfold handle_get. rewrite Hparse. cbn [get_key get_request_id].
    fold s1. cbv zeta in Hget. fold s1 in Hget. rewrite Hget. done.
Qed.

End Requests.

Lemma malformed_request_aborts_witness :
  let parse_get := λ _ : string, None in
  let parse_put := λ _ : string, None in
  let encode_get := λ _ : Server.TGetResponse, EmptyString in
  let encode_put := λ _ : Server.TPutResponse, EmptyString in
  let binaryDb := BinaryPersistentHashTable.construct false None PersistentHashTable.fresh in
  Server.handle_get parse_get encode_get "x" binaryDb = Aborted
  ∧ Server.handle_put parse_put encode_put "x" binaryDb = Aborted.
Proof.
  intros parse_get parse_put encode_get encode_put binaryDb.
  pose proof (malformed_request_aborts parse_get parse_put encode_get encode_put
                "p"%char "g"%char "x" binaryDb) as [Hget Hput].
  exact (conj (proj1 (Hget eq_refl)) (proj1 (Hput eq_refl))).
Defined.

Lemma empty_value_told_from_absent_after_reopen_witness :
  let parse_get := λ r : string, Some {| Server.get_request_id := 1; Server.get_key := r |} in
  let encode_get := λ r : Server.TGetResponse,
    match Server.get_response_offset r with Some v => v | None => "absent" end in
  let old := Stdio.le_bytes 8 1 ++ list_ascii_of_string "o" in
  let s := BinaryPersistentHashTable.construct false (Some old) PersistentHashTable.fresh in
  let s1 := BinaryPersistentHashTable.put "k" "" s in
  Server.handle_get parse_get encode_get "k" s = Ok ("absent", s)
  ∧ Server.handle_get parse_get encode_get "k" s1
    = Ok ("o", BinaryPersistentHashTable.mk (BinaryPersistentHashTable.table s1)
                 (Stdio.fseek_end (BinaryPersistentHashTable.f s1))).
Proof.
  intros parse_get encode_get old s s1.
  pose proof (empty_value_told_from_absent_after_reopen parse_get encode_get "k" 1 "k"
                eq_refl) as [Habsent Hempty].
  exact (conj (proj2 Habsent) (proj2 (proj2 Hempty))).
Defined.

Lemma empty_value_looks_absent_witness :
  let parse_get := λ r : string, Some {| Server.get_request_id := 1; Server.get_key := r |} in
  let encode_get := λ r : Server.TGetResponse,
    match Server.get_response_offset r with Some v => v | None => "absent" end in
  let s := BinaryPersistentHashTable.construct false None PersistentHashTable.fresh in
  let s1 := BinaryPersistentHashTable.background
              [PersistentHashTable.Flush]
              (BinaryPersistentHashTable.put "k" "" s) in
  Server.handle_get parse_get encode_get "k" s = Ok ("absent", s)
  ∧ Server.handle_get parse_get encode_get "k" s1 = Ok ("absent", s1).
Proof.
  intros parse_get encode_get s s1.
  pose proof (empty_value_looks_absent parse_get encode_get "k" 1 "k" s
                [PersistentHashTable.Flush] eq_refl eq_refl eq_refl) as [Habsent Hempty].
  exact (conj (proj2 (Habsent eq_refl)) (proj2 Hempty)).
Defined.

(** * More on the index engine *)

Section EngineMore.

Import PersistentHashTable.

Implicit Types (s : t) (key k : string) (log : list (string * N)).












Lemma skipws_blank (content : list ascii) :
  Forall (λ c, Text.isspace c = true) content → Text.skipws content = [].
Proof. induction 1 as [|c content Hc _ IH]; [done|]. cbn. by rewrite Hc. Qed.

(** X9. A file that exists but holds no count (it is empty, or all
    white space) does not load as the empty map: the extraction of [cnt]
    fails in the sentry, [cnt] keeps no value, and the loop bound is read
    uninitialised. *)
Theorem load_blank_file (content : list ascii) (m : gmap string N) :
  Forall (λ c, Text.isspace c = true) content →
  load (Some content) m = Indeterminate.
Proof.
  intros H. unfold load, Text.extract_int, Text.opened. cbn [Text.failbit Text.rest].
  by rewrite skipws_blank.
Qed.

Lemma load_blank_file_witness :
  construct (Some []) None = Indeterminate
  ∧ construct None (Some (list_ascii_of_string " ")) = Indeterminate.
Proof.
  split.
  - unfold construct. cbn [load mbind outcome_bind].
    rewrite (load_blank_file [] ∅); [reflexivity | constructor].
  - unfold construct.
    rewrite (load_blank_file (list_ascii_of_string " ") ∅); [reflexivity|].
    repeat constructor.
Defined.

Lemma read_entries_short (es : list (string * N)) : ∀ (n : nat) (m : gmap string N),
  Forall entry_ok es →
  (length es < n)%nat →
  read_entries n (Text.still_good (space :: entries_text es)) m = Indeterminate.
Proof.
  induction es as [|[k v] es IH]; intros n m Hok Hn.
  - destruct n as [|n]; [cbn in Hn; lia|]. reflexivity.
  - destruct n as [|n]; [cbn in Hn; lia|].
    apply Forall_cons in Hok as [He Hok]. cbn [read_entries].
    rewrite readFromFile_written by done.
    apply IH; [done|]. cbn in Hn. lia.
Qed.

(** X10. A torn file: when the count at the head of a file is larger
    than the number of entries that follow (tokens and offsets, well
    formed), the constructor's loop runs past the end of the file and
    inserts a value that was never assigned. *)
Theorem load_torn_file (n : nat) (es : list (string * N)) (m : gmap string N) :
  Forall entry_ok es →
  (length es < n)%nat →
  (Z.of_nat n ≤ Text.INT_MAX)%Z →
  load (Some (Text.print_N (N.of_nat n) ++ space :: entries_text es)) m
  = Indeterminate.
Proof.
  intros Hok Hlt Hn. unfold load.
  rewrite extract_int_written by lia.
  replace (Z.to_nat (Z.of_N (N.of_nat n))) with n by lia.
  by apply read_entries_short.
Qed.

Lemma load_torn_file_witness :
  load (Some (list_ascii_of_string "2 a 1 ")) ∅ = Indeterminate.
Proof.
  apply (load_torn_file 2 [("a", 1)] ∅).
  - repeat constructor; done.
  - cbn. lia.
  - done.
Defined.

Lemma flag_follows_thread_exec1 e s :
  flag_follows_thread s → wired e → flag_follows_thread (exec1 e s).
Proof.
  unfold flag_follows_thread. intros H He.
  destruct e as [key value|[| | | |]]; try done; cbn [exec1 step].
  - unfold dropLogs. by destruct (dropping s).
  - unfold dropper_step.
    destruct (dropThread s) eqn:Hpc; [destruct (cancelThread s)|..];
      cbn [dropping dropThread set_dropThread dropTable_begin dropTable_write
           dropTable_end set_dropping]; rewrite ?Hpc; done.
Qed.

(** X11. In the program as [main] wires it, where only the snapshot
    thread calls [dropTable], the flag [dropping] is up exactly while
    that thread is between the two mutex sections of [dropTable]: this
    holds after the constructor and after every [put], flush and thread
    step. *)
Theorem flag_is_up_exactly_inside_dropTable logs dbf s0 (es : list event) :
  construct logs dbf = Ok s0 →
  Forall wired es →
  flag_follows_thread (exec es s0).
Proof.
  intros Hs0 Hes.
  assert (H0 : flag_follows_thread s0).
  { unfold construct in Hs0.
    destruct (load dbf ∅) as [m1| |]; [|done..]. cbn [mbind outcome_bind] in Hs0.
    destruct (load logs m1) as [m2| |]; [|done..]. cbn [mbind outcome_bind] in Hs0.
    by injection Hs0 as <-. }
  clear Hs0. revert Hes.
  induction es as [|e es IH] using rev_ind; intros Hes; [done|].
  apply Forall_app in Hes as [Hes He%Forall_inv].
  rewrite exec_snoc. apply flag_follows_thread_exec1; [by apply IH | done].
Qed.

Lemma flag_is_up_exactly_inside_dropTable_witness :
  flag_follows_thread
    (exec [Put "a" 1; Bg Dropper; Put "b" 2; Bg Flush; Bg Dropper] fresh).
Proof.
  apply (flag_is_up_exactly_inside_dropTable None None fresh).
  - reflexivity.
  - repeat constructor.
Defined.




End EngineMore.

(** * More on the value store *)

Section StoreMore.

Import Stdio BinaryPersistentHashTable.

Implicit Types (s : t) (key k value : string) (m : gmap string string).

Lemma length_string_of_list_ascii (l : list ascii) :
  String.length (string_of_list_ascii l) = length l.
Proof. induction l as [|c l IH]; cbn; by rewrite ?IH. Qed.








Lemma length_put k value s :
  length (fdata (f (put k value s)))
  = (length (fdata (f s)) + (8 + String.length value))%nat.
Proof.
  unfold put. rewrite append_spec. cbn [f fdata].
  rewrite !length_app, length_le_bytes, length_list_ascii_of_string. lia.
Qed.





Lemma read_at_keeps_data offset file v file' :
  read_at offset file = Ok (v, file') →
  fdata file' = fdata file ∧ at_eof file'.
Proof.
  unfold read_at, fread, fseek_set, fseek_end.
  destruct (offset <? 2 ^ 63); cbn [fdata fpos];
    (destruct (decide _); [|done]); intros [= <- <-]; done.
Qed.

Lemma get_keeps_data key s v s' :
  get key s = Ok (v, s') →
  fdata (f s') = fdata (f s)
  ∧ table s' = table s
  ∧ (is_Some (PersistentHashTable.get key (table s)) → at_eof (f s')).
Proof.
  unfold get. destruct (PersistentHashTable.get key (table s)) as [offset|].
  - destruct (read_at offset (f s)) as [[v0 file']| |] eqn:Hread; [|done..].
    cbn [mbind outcome_bind fst snd]. intros [= <- <-].
    apply read_at_keeps_data in Hread as [Hdata Heof]. done.
  - intros [= <- <-]. split; [done|]. split; [done|]. by intros [? ?].
Qed.

(** X14. The contents of the value stream (what [values.bin] holds on
    disk, followed by what stdio has buffered and not yet written out)
    are append-only, from every state of the store: whatever calls are
    made, if they all return, the bytes the stream held before are still
    there, in place, and the contents have grown by exactly eight bytes
    plus the payload for each [put]. When the new bytes reach the disk is
    not stated: [put] never flushes, so they may still be in the buffer
    when it returns. *)
Theorem store_is_append_only (cs : list Service.call) s s' :
  Service.run cs s = Ok s' →
  fdata (f s) `prefix_of` fdata (f s')
  ∧ length (fdata (f s')) = (length (fdata (f s)) + bytes_appended cs)%nat.
Proof.
  revert s. induction cs as [|c cs IH]; intros s Hrun.
  - cbn in Hrun. injection Hrun as <-. cbn. by rewrite Nat.add_0_r.
  - destruct c as [k value|k|e].
    + change (Service.run cs (put k value s) = Ok s') in Hrun.
      destruct (IH _ Hrun) as [Hpre Hlen].
      change (bytes_appended (Service.Call_put k value :: cs))
        with (8 + String.length value + bytes_appended cs)%nat.
      split.
      * etrans; [|exact Hpre]. unfold put. rewrite append_spec. cbn [f fdata].
        by apply prefix_app_r.
      * rewrite Hlen, length_put. lia.
    + cbn [Service.run Service.apply] in Hrun.
      destruct (get k s) as [[v s1]| |] eqn:Hget; [|done..].
      cbn [mbind outcome_bind snd] in Hrun.
      apply get_keeps_data in Hget as (Hdata & _ & _).
      destruct (IH _ Hrun) as [Hpre Hlen]. rewrite Hdata in Hpre, Hlen. done.
    + change (Service.run cs (background [e] s) = Ok s') in Hrun.
      by destruct (IH _ Hrun) as [Hpre Hlen].
Qed.

Lemma store_is_append_only_witness :
  let old := le_bytes 8 1 ++ list_ascii_of_string "o" in
  let s := construct false (Some old) (PersistentHashTable.put "o" 0 PersistentHashTable.fresh) in
  let cs := [Service.Call_put "k" "hello"; Service.Call_get "o"; Service.Call_put "o" ""] in
  ∃ s', Service.run cs s = Ok s'
        ∧ old `prefix_of` fdata (f s')
        ∧ length (fdata (f s')) = (9 + 21)%nat.
Proof.
  intros old s cs.
  assert (Hrun : ∃ s', Service.run cs s = Ok s') by (vm_compute; by eexists).
  destruct Hrun as [s' Hrun]. exists s'. split; [done|].
  exact (store_is_append_only cs s s' Hrun).
Defined.



(** X16. An offset with fewer than eight bytes of file behind it (a
    value file shorter than the index expects): [fread] cannot fill [sz],
    and [get] builds its result from a length that was never assigned. *)
Theorem get_truncated_record key s offset :
  PersistentHashTable.get key (table s) = Some offset →
  offset < 2 ^ 63 →
  N.of_nat (length (fdata (f s))) < offset + 8 →
  get key s = Indeterminate.
Proof.
  intros Hoff Hseek Hshort. unfold get. rewrite Hoff.
  unfold read_at, fseek_set, fread.
  replace (offset <? 2 ^ 63) with true by (symmetry; by apply N.ltb_lt).
  cbn [fdata fpos]. rewrite decide_False; [done|].
  rewrite length_take, length_drop. lia.
Qed.

Lemma get_truncated_record_witness :
  let tbl := PersistentHashTable.put "k" 4 PersistentHashTable.fresh in
  get "k" (construct false (Some (le_bytes 8 0)) tbl) = Indeterminate.
Proof.
  intros tbl.
  apply (get_truncated_record "k" (construct false (Some (le_bytes 8 0)) tbl) 4);
    reflexivity.
Defined.

(** X17. When the eight bytes of the length are there, what [get]
    does depends on the recorded length alone, whatever the file holds
    after them. With [limit] the largest length for which
    [std::string ret(sz, 0)] succeeds: up to [limit], [get] returns a
    string of exactly the recorded length (the bytes that are there, then
    zero characters for the ones that are not) and leaves the stream at
    the end of the file; above [limit] the construction throws, nothing
    catches it, and the process ends. *)
Theorem get_result_has_recorded_length limit key s offset :
  PersistentHashTable.get key (table s) = Some offset →
  offset < 2 ^ 63 →
  offset + 8 ≤ N.of_nat (length (fdata (f s))) →
  let sz := le_value (take 8 (drop (N.to_nat offset) (fdata (f s)))) in
  let rest := take (N.to_nat sz) (drop (N.to_nat offset + 8) (fdata (f s))) in
  (sz ≤ limit →
   ∃ v s', get_within limit key s = Ok (v, s')
           ∧ String.length v = N.to_nat sz
           ∧ list_ascii_of_string v
             = rest ++ replicate (N.to_nat sz - length rest) Ascii.zero
           ∧ at_eof (f s'))
  ∧ (limit < sz → get_within limit key s = Aborted).
Proof.
  intros Hoff Hseek Hlong sz rest. unfold get_within. rewrite Hoff.
  unfold read_at_within, fseek_set, fread.
  replace (offset <? 2 ^ 63) with true by (symmetry; by apply N.ltb_lt).
  cbn [fdata fpos]. change (N.to_nat 8) with 8%nat.
  rewrite decide_True by (rewrite length_take, length_drop; lia).
  rewrite length_take, length_drop.
  replace (N.to_nat (offset + N.of_nat (8 `min` (length (fdata (f s)) - N.to_nat offset))))
    with (N.to_nat offset + 8)%nat by lia.
  fold sz. fold rest. split.
  - intros Hsz. replace (limit <? sz) with false by (symmetry; by apply N.ltb_ge).
    cbn [mbind outcome_bind fst snd].
    eexists _, _. split; [reflexivity|].
    rewrite length_string_of_list_ascii, list_ascii_of_string_of_list_ascii.
    rewrite length_app, length_replicate.
    split; [|done].
    assert (length rest ≤ N.to_nat sz)%nat by (unfold rest; rewrite length_take; lia).
    lia.
  - intros Hsz. replace (limit <? sz) with true by (symmetry; by apply N.ltb_lt).
    reflexivity.
Qed.

Lemma get_result_has_recorded_length_witness :
  let tbl := PersistentHashTable.put "k" 0 PersistentHashTable.fresh in
  let short := construct false (Some (le_bytes 8 3 ++ list_ascii_of_string "a")) tbl in
  let huge := construct false (Some (le_bytes 8 (2 ^ 62))) tbl in
  (∃ v s', get_within (2 ^ 62 - 1) "k" short = Ok (v, s') ∧ String.length v = 3%nat)
  ∧ get_within (2 ^ 62 - 1) "k" huge = Aborted.
Proof.
  intros tbl short huge. split.
  - destruct (get_result_has_recorded_length (2 ^ 62 - 1) "k" short 0) as [Hok _];
      [reflexivity | reflexivity | by vm_compute |].
    destruct Hok as (v & s' & Hget & Hlen & _); [by vm_compute|].
    exists v, s'. split; [done|]. exact Hlen.
  - destruct (get_result_has_recorded_length (2 ^ 62 - 1) "k" huge 0) as [_ Habort];
      [reflexivity | reflexivity | by vm_compute |].
    apply Habort. reflexivity.
Defined.

End StoreMore.

(** * More on the request handlers *)

Section RequestsMore.

Import Stdio BinaryPersistentHashTable Server.

Variable parse_get : string → option TGetRequest.
Variable parse_put : string → option TPutRequest.
Variable encode_get : TGetResponse → string.
Variable encode_put : TPutResponse → string.
Variables PUT_REQUEST GET_REQUEST : ascii.


End RequestsMore.


(** * Sockets and the event loop *)

Section Bootstrap.

Import Net.

Lemma bind_first_spec (result : list addrinfo) : ∀ trace o trace',
  bind_first result trace = (o, trace') →
  ∃ ext,
    trace' = trace ++ ext
    ∧ opened_sockets ext
      = closed_sockets ext ++ (match o with Some fd => [fd] | None => [] end)
    ∧ (Sys_freeaddrinfo ∉ ext)
    ∧ (o = None ↔ Forall unusable result)
    ∧ (∀ fd, o = Some fd →
         fd ≠ (-1)%Z
         ∧ ∃ pre rp post,
             result = pre ++ rp :: post ∧ Forall unusable pre
             ∧ socket_answer rp = fd ∧ bind_answer rp = 0%Z).
Proof.
  induction result as [|rp rest IH]; intros trace o trace' H; cbn [bind_first] in H.
  - injection H as <- <-. exists []. rewrite app_nil_r.
    split; [done|]. split; [done|]. split; [apply not_elem_of_nil|].
    split; [done|]. done.
  - destruct (decide (socket_answer rp = (-1)%Z)) as [Hsock|Hsock].
    + destruct (IH _ _ _ H) as (ext & -> & Hopen & Hfree & Hnone & Hsome).
      exists (Sys_socket (socket_answer rp) :: ext).
      split; [by rewrite <- app_assoc|].
      split; [unfold opened_sockets, closed_sockets in *; cbn [omap list_omap];
              by rewrite decide_True|].
      split; [rewrite not_elem_of_cons; done|].
      split.
      * rewrite Hnone. split; [intros ?; constructor; [by left | done]|].
        by intros [_ ?]%Forall_cons_1.
      * intros fd Hfd. destruct (Hsome fd Hfd) as (Hne & pre & rp' & post & -> & Hpre & ? & ?).
        split; [done|]. exists (rp :: pre), rp', post.
        split; [done|]. split; [constructor; [by left | done]|]. done.
    + destruct (decide (bind_answer rp = 0%Z)) as [Hbind|Hbind].
      * injection H as <- <-. exists [Sys_socket (socket_answer rp)].
        split; [done|].
        split; [unfold opened_sockets, closed_sockets; cbn [omap list_omap];
                by rewrite decide_False|].
        split; [rewrite list_elem_of_singleton; done|].
        split.
        { split; [done|]. intros [[?|?] _]%Forall_cons_1; done. }
        intros fd [= <-]. split; [done|]. exists [], rp, rest. done.
      * destruct (IH _ _ _ H) as (ext & -> & Hopen & Hfree & Hnone & Hsome).
        exists (Sys_socket (socket_answer rp) :: Sys_close (socket_answer rp) :: ext).
        split; [by rewrite <- !app_assoc|].
        split; [unfold opened_sockets, closed_sockets in *; cbn [omap list_omap];
                rewrite decide_False by done; cbn; by f_equal|].
        split; [rewrite !not_elem_of_cons; done|].
        split.
        { rewrite Hnone. split; [intros ?; constructor; [by right | done]|].
          by intros [_ ?]%Forall_cons_1. }
        intros fd Hfd. destruct (Hsome fd Hfd) as (Hne & pre & rp' & post & -> & Hpre & ? & ?).
        split; [done|]. exists (rp :: pre), rp', post.
        split; [done|]. split; [constructor; [by right | done]|]. done.
Qed.

(** X19. [create_and_bind] returns the socket of the first address for
    which both [socket] and [bind] succeed, and [-1] exactly when
    [getaddrinfo] fails or no address is usable. Every socket it opened
    on the way is closed again, in order, except the one it returns; and
    [freeaddrinfo] is called exactly when a socket is returned. *)
Theorem create_and_bind_first_usable (getaddrinfo_answer : Z) (result : list addrinfo) :
  let fd := (create_and_bind getaddrinfo_answer result).1 in
  let trace := (create_and_bind getaddrinfo_answer result).2 in
  opened_sockets trace
  = closed_sockets trace ++ (if decide (fd = (-1)%Z) then [] else [fd])
  ∧ (fd = (-1)%Z ↔ getaddrinfo_answer ≠ 0%Z ∨ Forall unusable result)
  ∧ (fd ≠ (-1)%Z →
     ∃ pre rp post,
       result = pre ++ rp :: post ∧ Forall unusable pre
       ∧ socket_answer rp = fd ∧ bind_answer rp = 0%Z)
  ∧ (Sys_freeaddrinfo ∈ trace ↔ fd ≠ (-1)%Z).
Proof.
  unfold create_and_bind.
  destruct (decide (getaddrinfo_answer ≠ 0%Z)) as [Hga|Hga]; cbn zeta; cbn [fst snd].
  { split; [done|]. split; [by split; [left|]|]. split; [done|].
    split; [by intros ?%elem_of_nil | done]. }
  destruct (bind_first result []) as [o trace] eqn:Hloop.
  destruct (bind_first_spec _ _ _ _ Hloop) as (ext & -> & Hopen & Hfree & Hnone & Hsome).
  cbn [app] in *.
  destruct o as [fd|]; cbn [fst snd].
  - destruct (Hsome fd eq_refl) as (Hne & Hfirst).
    rewrite decide_False by done.
    split.
    { unfold opened_sockets, closed_sockets in *. rewrite !omap_app. cbn.
      by rewrite !app_nil_r. }
    split.
    { split; [done|]. intros [?|Hall]; [done|]. by apply Hnone in Hall. }
    split; [done|].
    split; [intros _; done|]. intros _. rewrite elem_of_app, list_elem_of_singleton. by right.
  - rewrite decide_True by done. rewrite app_nil_r in Hopen.
    split; [by rewrite app_nil_r|].
    split; [split; [intros _; right; by apply Hnone | done]|].
    split; [done|].
    split; [done | done].
Qed.

End Bootstrap.

Section ReactorMore.

Import Net.

Context {SocketState : Type}.
Variable new_state : SocketState.
Variable fd_of : SocketState → Z.
Variable with_fd : Z → SocketState → SocketState.
Variable process_input :
  (ascii → string → BinaryPersistentHashTable.t →
   outcome (string * BinaryPersistentHashTable.t)) →
  SocketState → BinaryPersistentHashTable.t →
  outcome (bool * SocketState * BinaryPersistentHashTable.t).
Variable process_output : SocketState → bool * SocketState.
Variable handler :
  ascii → string → BinaryPersistentHashTable.t →
  outcome (string * BinaryPersistentHashTable.t).
Variable socketfd : Z.

Implicit Types (r : @Net.t SocketState) (ev : epoll_event).

Lemma serve_input_spec ev r r1 was_closed :
  serve_input process_input handler ev r = Ok (r1, was_closed) →
  (∀ fd', fd' ≠ data_fd ev → states r1 !! fd' = states r !! fd')
  ∧ (was_closed = false ∧ closed r1 = closed r
     ∨ was_closed = true ∧ closed r1 = closed r ++ [data_fd ev]
       ∧ states r1 !! data_fd ev = None).
Proof.
  unfold serve_input, states_at.
  destruct (negb _); [|intros [= <- <-]; split; [done | by left]].
  destruct (states r !! data_fd ev) as [state|]; [|done].
  destruct (process_input handler state (binaryDb r)) as [[[[|] state'] db']| |];
    [| |done..]; intros [= <- <-]; cbn [states closed finalize].
  - split; [|by left]. intros fd' Hne. by rewrite lookup_insert_ne.
  - split; [|right; by rewrite lookup_delete_eq].
    intros fd' Hne. by rewrite lookup_delete_ne, lookup_insert_ne.
Qed.

Lemma serve_input_flag_up ev r r1 was_closed :
  serve_input process_input handler ev r = Ok (r1, was_closed) →
  Z.land (events ev) EPOLLIN = 0%Z → r1 = r ∧ was_closed = false.
Proof.
  unfold serve_input. intros H Hin. rewrite Hin in H. cbn in H. by injection H as <- <-.
Qed.

Lemma serve_output_spec ev was_closed r r' :
  serve_output process_output ev was_closed r = Ok r' →
  binaryDb r' = binaryDb r
  ∧ (∀ fd', fd' ≠ data_fd ev → states r' !! fd' = states r !! fd')
  ∧ (was_closed = true → r' = r)
  ∧ (closed r' = closed r
     ∨ closed r' = closed r ++ [data_fd ev] ∧ states r' !! data_fd ev = None).
Proof.
  unfold serve_output, states_at.
  destruct (negb (Z.land (events ev) EPOLLOUT =? 0)%Z), was_closed; cbn [andb negb];
    try (intros [= <-]; split; [done|]; split; [done|]; split; [done|]; by left).
  destruct (states r !! data_fd ev) as [state|]; [|done].
  destruct (process_output state) as [[|] state']; intros [= <-];
    cbn [states closed binaryDb finalize]; (split; [done|]).
  - split; [intros fd' Hne; by rewrite lookup_insert_ne|]. split; [done|]. by left.
  - split; [intros fd' Hne; by rewrite lookup_delete_ne, lookup_insert_ne|].
    split; [done|]. right. by rewrite lookup_delete_eq.
Qed.

(** X20. One event touches one connection. When the body of the loop
    returns for an event that is an error or is not for the listening
    socket, the state of every other descriptor is what it was, and
    either nothing was closed, or exactly the event's descriptor was
    closed, once, and no state is kept for it. *)
Theorem serve_event_touches_one_connection ev r r' :
  serve_event new_state fd_of with_fd process_input process_output handler
              socketfd ev r = Ok r' →
  is_error (events ev) = true ∨ data_fd ev ≠ socketfd →
  (∀ fd', fd' ≠ data_fd ev → states r' !! fd' = states r !! fd')
  ∧ (closed r' = closed r
     ∨ closed r' = closed r ++ [data_fd ev] ∧ states r' !! data_fd ev = None).
Proof.
  unfold serve_event. intros H Hkind.
  destruct (is_error (events ev)) eqn:Herr.
  { injection H as <-. cbn [states closed finalize].
    split; [intros fd' Hne; by rewrite lookup_delete_ne|].
    right. by rewrite lookup_delete_eq. }
  destruct Hkind as [?|Hfd]; [done|].
  rewrite decide_False in H by done.
  destruct (serve_input process_input handler ev r) as [[r1 was_closed]| |] eqn:Hin;
    [|done..].
  apply serve_input_spec in Hin as [Hothers1 Hclosed1].
  apply serve_output_spec in H as (_ & Hothers2 & Hsame & Hclosed2).
  cbn [flush states closed] in *.
  split.
  { intros fd' Hne. by rewrite Hothers2, Hothers1. }
  destruct Hclosed1 as [[-> Hc1]|(-> & Hc1 & Hgone)].
  - rewrite <- Hc1. exact Hclosed2.
  - rewrite (Hsame eq_refl). cbn [flush states closed]. by right.
Qed.

Lemma dropLogs_pending_is_logged (s : PersistentHashTable.t) :
  pending_is_logged (PersistentHashTable.dropLogs s).
Proof.
  unfold pending_is_logged, PersistentHashTable.dropLogs.
  destruct (PersistentHashTable.dropping s); cbn; [right | left]; done.
Qed.

Lemma step_pending_is_logged (e : PersistentHashTable.background) (s : PersistentHashTable.t) :
  pending_is_logged s → pending_is_logged (PersistentHashTable.step e s).
Proof.
  intros H. destruct e; cbn [PersistentHashTable.step].
  - apply dropLogs_pending_is_logged.
  - unfold PersistentHashTable.dropper_step.
    destruct (PersistentHashTable.dropThread s);
      [destruct (PersistentHashTable.cancelThread s)|..]; exact H.
  - exact H.
  - exact H.
  - exact H.
Qed.

Lemma run_pending_is_logged (es : list PersistentHashTable.background)
    (s : PersistentHashTable.t) :
  pending_is_logged s → pending_is_logged (PersistentHashTable.run es s).
Proof.
  intros H. induction es as [|e es IH] using rev_ind; [done|].
  rewrite run_snoc. by apply step_pending_is_logged.
Qed.

(** X21. The flush of the loop. When the body of the loop returns for a
    readable or writable event of a connection, [dropLogs] has run after
    the requests were handled, and the body has not touched the engine
    since. So at the return, and from then on until the next [put],
    whatever steps the snapshot thread has taken since that flush and
    however often the loop flushes again, nothing is pending or the log
    file holds exactly the pending log. For an error event, and for an
    event of the listening socket, the body does not touch the store. *)
Theorem serve_event_flushes ev r r' (es : list PersistentHashTable.background) :
  serve_event new_state fd_of with_fd process_input process_output handler
              socketfd ev r = Ok r' →
  if is_error (events ev) || bool_decide (socketfd = data_fd ev)
  then binaryDb r' = binaryDb r
  else pending_is_logged
         (PersistentHashTable.run es (BinaryPersistentHashTable.table (binaryDb r'))).
Proof.
  unfold serve_event. intros H.
  destruct (is_error (events ev)); cbn [orb].
  { by injection H as <-. }
  destruct (decide (socketfd = data_fd ev)) as [Hfd|Hfd].
  { rewrite bool_decide_eq_true_2 by done. by injection H as <-. }
  rewrite bool_decide_eq_false_2 by done.
  destruct (serve_input process_input handler ev r) as [[r1 was_closed]| |]; [|done..].
  apply serve_output_spec in H as (-> & _).
  cbn [flush binaryDb BinaryPersistentHashTable.background BinaryPersistentHashTable.table].
  apply run_pending_is_logged, dropLogs_pending_is_logged.
Qed.

(** X22. A readable or writable event for a descriptor that is not the
    listening socket and has no entry in [states]: [states.at(fd)]
    throws, nothing catches it, and the process ends. *)
Theorem event_for_unknown_descriptor_aborts ev r :
  is_error (events ev) = false →
  data_fd ev ≠ socketfd →
  states r !! data_fd ev = None →
  serve_event new_state fd_of with_fd process_input process_output handler
              socketfd ev r = Aborted.
Proof.
  intros Herr Hfd Hnone. unfold serve_event. rewrite Herr, decide_False by done.
  unfold is_error in Herr.
  apply orb_false_iff in Herr as [_ Hany]. apply Z.eqb_neq in Hany.
  rewrite Z.land_lor_distr_r in Hany.
  unfold serve_input, states_at. rewrite Hnone.
  destruct (Z.land (events ev) EPOLLIN =? 0)%Z eqn:Hin; cbn [negb]; [|done].
  apply Z.eqb_eq in Hin.
  unfold serve_output, states_at. cbn [flush states]. rewrite Hnone.
  destruct (Z.land (events ev) EPOLLOUT =? 0)%Z eqn:Hout; cbn [negb andb]; [|done].
  apply Z.eqb_eq in Hout. exfalso. apply Hany. rewrite Hin, Hout. done.
Qed.

Lemma serve_event_closes_at_most_one ev r r' :
  serve_event new_state fd_of with_fd process_input process_output handler
              socketfd ev r = Ok r' →
  closed r' = closed r ∨ closed r' = closed r ++ [data_fd ev].
Proof.
  unfold serve_event. intros H.
  destruct (is_error (events ev)); [injection H as <-; by right|].
  destruct (decide (socketfd = data_fd ev)); [injection H as <-; by left|].
  destruct (serve_input process_input handler ev r) as [[r1 was_closed]| |] eqn:Hin;
    [|done..].
  apply serve_input_spec in Hin as [_ Hclosed1].
  apply serve_output_spec in H as (_ & _ & Hsame & Hclosed2).
  cbn [flush states closed] in *.
  destruct Hclosed1 as [[-> Hc1]|(-> & Hc1 & _)].
  - rewrite <- Hc1. destruct Hclosed2 as [?|[? _]]; [by left | by right].
  - rewrite (Hsame eq_refl). cbn [flush closed]. by right.
Qed.

(** X24. No descriptor is closed twice. When the events of one wake-up
    are all served, the descriptors closed on the way are descriptors of
    these events, in the order of the events and at most one per event;
    so when the events are for distinct descriptors, as [epoll_wait]
    delivers them, none is closed more than once. *)
Theorem serve_closes_each_descriptor_once (evs : list epoll_event) r r' :
  serve new_state fd_of with_fd process_input process_output handler
        socketfd evs r = Ok r' →
  ∃ l, closed r' = closed r ++ l
       ∧ l `sublist_of` (data_fd <$> evs)
       ∧ (NoDup (data_fd <$> evs) → NoDup l).
Proof.
  revert r. induction evs as [|ev evs IH]; intros r H; cbn [serve] in H.
  - injection H as <-. exists []. rewrite app_nil_r.
    split; [done|]. split; [done|]. intros _. constructor.
  - destruct (serve_event new_state fd_of with_fd process_input process_output
                handler socketfd ev r) as [r1| |] eqn:Hev; [|done..].
    cbn [mbind outcome_bind] in H.
    destruct (IH _ H) as (l & Hl & Hsub & _).
    apply serve_event_closes_at_most_one in Hev as [Hc|Hc]; rewrite Hc in Hl.
    + exists l. split; [done|].
      assert (Hsub' : l `sublist_of` (data_fd <$> ev :: evs)) by by apply sublist_cons.
      split; [done|]. intros Hnd. by eapply sublist_NoDup.
    + exists (data_fd ev :: l). split; [by rewrite Hl, <- app_assoc|].
      assert (Hsub' : (data_fd ev :: l) `sublist_of` (data_fd <$> ev :: evs))
        by by apply sublist_skip.
      split; [done|]. intros Hnd. by eapply sublist_NoDup.
Qed.

(** [state->fd = infd] *)
Hypothesis fd_of_with_fd : ∀ fd state, fd_of (with_fd fd state) = fd.

Lemma accept_loop_keeps (answers : list arrival) : ∀ (m : gmap Z SocketState) fd state,
  m !! fd = Some state → fd_of state = fd →
  ∃ state', accept_loop new_state fd_of with_fd answers m !! fd = Some state'
            ∧ fd_of state' = fd.
Proof.
  induction answers as [|a rest IH]; intros m fd state Hm Hfd; cbn [accept_loop].
  - by exists state.
  - destruct (accept_connection new_state with_fd a) as [st|]; [|by exists state].
    destruct (decide (fd_of st = fd)) as [Heq|Hne].
    + apply (IH _ fd st); [by rewrite <- Heq, lookup_insert_eq | done].
    + apply (IH _ fd state); [by rewrite lookup_insert_ne | done].
Qed.

(** X23. The accept loop drains the queue: every connection that
    arrives before [accept] would block, and whose descriptor is made
    non-blocking and added to the epoll set, has an entry in [states]
    under its descriptor when the loop ends, with that descriptor in it. *)
Theorem accept_loop_registers (pre post : list arrival) (m : gmap Z SocketState)
    (infd getfl_answer setfl_answer epoll_ctl_answer : Z) :
  Would_block ∉ pre →
  getfl_answer ≠ (-1)%Z →
  setfl_answer ≠ (-1)%Z →
  epoll_ctl_answer ≠ (-1)%Z →
  ∃ state,
    accept_loop new_state fd_of with_fd
      (pre ++ Arrived infd getfl_answer setfl_answer epoll_ctl_answer :: post) m
    !! infd = Some state
    ∧ fd_of state = infd.
Proof.
  intros Hpre Hget Hset Hctl. revert m.
  induction pre as [|a pre IH]; intros m; cbn [app accept_loop].
  - unfold accept_connection, make_socket_nonblocking.
    rewrite ?decide_False by done. cbn [fst]. rewrite ?decide_False by done.
    rewrite fd_of_with_fd.
    apply (accept_loop_keeps post _ infd (with_fd infd new_state));
      [apply lookup_insert_eq | apply fd_of_with_fd].
  - apply not_elem_of_cons in Hpre as [Ha Hpre].
    destruct a as [| |fd1 g1 s1 e1]; [done|..]; cbn [accept_connection].
    + by apply IH.
    + destruct ((make_socket_nonblocking g1 s1).1); [destruct (decide _)|]; by apply IH.
Qed.

End ReactorMore.

Lemma serve_event_touches_one_connection_witness :
  let ev := {| Net.data_fd := 5; Net.events := 1; Net.arrivals := [] |} in
  ∃ r', toy_serve_event ev toy_reactor = Ok r'
        ∧ Net.states r' !! 6%Z = Some 6%Z.
Proof.
  intros ev.
  assert (Hrun : ∃ r', toy_serve_event ev toy_reactor = Ok r') by (vm_compute; by eexists).
  destruct Hrun as [r' Hrun]. exists r'. split; [done|].
  destruct (serve_event_touches_one_connection _ _ _ _ _ _ _ ev toy_reactor r' Hrun)
    as [Hothers _]; [by right|].
  by rewrite (Hothers 6%Z).
Defined.

Lemma serve_event_flushes_witness :
  let ev := {| Net.data_fd := 5; Net.events := 1; Net.arrivals := [] |} in
  let in_snapshot :=
    PersistentHashTable.dropper_step
      (PersistentHashTable.dropper_step PersistentHashTable.fresh) in
  let r := Net.mk (<[5%Z := 5%Z]> ∅)
                  (BinaryPersistentHashTable.construct false None in_snapshot) [] in
  let es := [PersistentHashTable.Dropper; PersistentHashTable.Dropper] in
  ∃ r', toy_serve_event ev r = Ok r'
        ∧ PersistentHashTable.dropping
            (PersistentHashTable.run es (BinaryPersistentHashTable.table (Net.binaryDb r')))
          = false
        ∧ PersistentHashTable.pendingLog
            (PersistentHashTable.run es (BinaryPersistentHashTable.table (Net.binaryDb r')))
          = [("k"%string, 0)]
        ∧ pending_is_logged
            (PersistentHashTable.run es (BinaryPersistentHashTable.table (Net.binaryDb r'))).
Proof.
  intros ev in_snapshot r es.
  eexists. split; [vm_compute; reflexivity|].
  split; [vm_compute; reflexivity|]. split; [vm_compute; reflexivity|].
  apply (serve_event_flushes (-1)%Z (λ fd : Z, fd) (λ (fd : Z) (_ : Z), fd)
           toy_process_input (λ state : Z, (true, state)) toy_handler 3%Z ev r _ es).
  vm_compute; reflexivity.
Defined.

Lemma event_for_unknown_descriptor_aborts_witness :
  toy_serve_event {| Net.data_fd := 9; Net.events := 4; Net.arrivals := [] |} toy_reactor
  = Aborted.
Proof.
  apply (event_for_unknown_descriptor_aborts (-1)%Z (λ fd : Z, fd) (λ (fd : Z) (_ : Z), fd)
           toy_process_input (λ state : Z, (true, state)) toy_handler 3%Z);
    [reflexivity | discriminate | reflexivity].
Defined.

Lemma serve_closes_each_descriptor_once_witness :
  let evs := [ {| Net.data_fd := 5; Net.events := 16; Net.arrivals := [] |};
               {| Net.data_fd := 6; Net.events := 5; Net.arrivals := [] |} ] in
  ∃ r' l, Net.serve (-1)%Z (λ fd : Z, fd) (λ (fd : Z) (_ : Z), fd)
                    toy_process_input (λ state : Z, (true, state)) toy_handler 3%Z
                    evs toy_reactor = Ok r'
          ∧ Net.closed r' = Net.closed toy_reactor ++ l
          ∧ l `sublist_of` [5%Z; 6%Z].
Proof.
  intros evs.
  assert (Hrun : ∃ r', Net.serve (-1)%Z (λ fd : Z, fd) (λ (fd : Z) (_ : Z), fd)
                    toy_process_input (λ state : Z, (true, state)) toy_handler 3%Z
                    evs toy_reactor = Ok r') by (vm_compute; by eexists).
  destruct Hrun as [r' Hrun].
  destruct (serve_closes_each_descriptor_once _ _ _ _ _ _ _ evs toy_reactor r' Hrun)
    as (l & Hl & Hsub & _).
  by exists r', l.
Defined.

Lemma accept_loop_registers_witness :
  ∃ state,
    Net.accept_loop (-1)%Z (λ fd : Z, fd) (λ (fd : Z) (_ : Z), fd)
      ([Net.Accept_failed] ++ Net.Arrived 7 0 0 0 :: [Net.Would_block; Net.Arrived 8 0 0 0]) ∅
    !! 7%Z = Some state
    ∧ state = 7%Z.
Proof.
  apply (accept_loop_registers (-1)%Z (λ fd : Z, fd) (λ (fd : Z) (_ : Z), fd)
           (λ _ _, eq_refl) [Net.Accept_failed] [Net.Would_block; Net.Arrived 8 0 0 0]
           ∅ 7 0 0 0).
  - intros H%list_elem_of_singleton. discriminate.
  - discriminate.
  - discriminate.
  - discriminate.
Defined.

(** * Round trip of one entry, and the flags of a socket *)

Section Strategy.

Import Text.

Lemma skipws_app_blank (ws s : list ascii) :
  Forall (λ c, isspace c = true) ws → skipws (ws ++ s) = skipws s.
Proof. induction 1 as [|c ws Hc _ IH]; [done|]. cbn. by rewrite Hc. Qed.

Lemma skipws_token k r :
  token k →
  skipws (list_ascii_of_string k ++ space :: r) = list_ascii_of_string k ++ space :: r
  ∧ ∃ c t, list_ascii_of_string k ++ space :: r = c :: t.
Proof.
  intros [Hne Hall].
  destruct (list_ascii_of_string k) as [|c tok] eqn:Hk.
  { exfalso. apply Hne. by rewrite <- (string_of_list_ascii_of_string k), Hk. }
  cbn [app skipws]. rewrite (Forall_inv Hall). split; [done|]. by eexists _, _.
Qed.

(** X26. The strategy round-trips one entry: for a key that is a token
    and an offset that fits [uint64_t], what [writeToFile] writes is
    read back by [readFromFile] as the same pair, after any white space,
    with the stream still good and standing on the space that ends the
    entry. *)
Theorem readFromFile_after_writeToFile (k : string) (v : N) (ws more : list ascii) :
  token k →
  v ≤ UINT64_MAX →
  Forall (λ c, isspace c = true) ws →
  readFromFile (opened (writeToFile k v ws ++ more))
  = ((k, Some v), still_good (space :: more)).
Proof.
  intros Hk Hv Hws. unfold readFromFile, writeToFile.
  rewrite <- !app_assoc. cbn [app].
  assert (Hkey : extract_string
                   (opened (ws ++ list_ascii_of_string k ++ space :: print_N v ++ space :: more))
                 = (k, still_good (space :: print_N v ++ space :: more))).
  { unfold extract_string, opened. cbn [failbit rest]. 
    rewrite skipws_app_blank by done.
    destruct (skipws_token k (print_N v ++ space :: more) Hk) as (Hskip & c & t & Hcons).
    rewrite Hskip.
    pose proof (take_token_written (list_ascii_of_string k) (print_N v ++ space :: more)
                  (proj2 Hk)) as Htok.
    rewrite Hcons in Htok |- *. cbv beta iota. rewrite Htok.
    by rewrite string_of_list_ascii_of_string. }
  rewrite Hkey. by rewrite extract_uint64_written.
Qed.

Lemma readFromFile_after_writeToFile_witness :
  readFromFile (opened (writeToFile "key" 42 [] ++ list_ascii_of_string "more"))
  = (("key"%string, Some 42), still_good (space :: list_ascii_of_string "more")).
Proof.
  apply (readFromFile_after_writeToFile "key" 42 [] (list_ascii_of_string "more")).
  - repeat constructor; done.
  - done.
  - constructor.
Defined.

(** X25. [make_socket_nonblocking] reports success exactly when both
    [fcntl] calls succeed; whenever it reaches [F_SETFL], the flags it
    hands over have the bit of [O_NONBLOCK] set and every bit that
    [F_GETFL] returned: it adds one flag and clears none. *)
Theorem make_socket_nonblocking_adds_one_flag (getfl_answer setfl_answer : Z) :
  ((Net.make_socket_nonblocking getfl_answer setfl_answer).1 = true
   ↔ getfl_answer ≠ (-1)%Z ∧ setfl_answer ≠ (-1)%Z)
  ∧ ∀ flags,
      (Net.make_socket_nonblocking getfl_answer setfl_answer).2 = Some flags →
      getfl_answer ≠ (-1)%Z
      ∧ Z.testbit flags 11 = true
      ∧ ∀ n, Z.testbit getfl_answer n = true → Z.testbit flags n = true.
Proof.
  unfold Net.make_socket_nonblocking.
  destruct (decide (getfl_answer = (-1)%Z)) as [Hget|Hget]; cbn [fst snd].
  { split; [split; [done | by intros [? _]]|]. done. }
  assert (Hflags : Z.testbit (Z.lor getfl_answer Net.O_NONBLOCK) 11 = true
                   ∧ ∀ n, Z.testbit getfl_answer n = true
                          → Z.testbit (Z.lor getfl_answer Net.O_NONBLOCK) n = true).
  { split.
    - rewrite Z.lor_spec. apply orb_true_iff. by right.
    - intros n Hn. rewrite Z.lor_spec, Hn. done. }
  destruct (decide (setfl_answer = (-1)%Z)) as [Hset|Hset]; cbn [fst snd].
  - split; [split; [done | by intros [_ ?]]|].
    intros flags [= <-]. by split.
  - split; [done|]. intros flags [= <-]. by split.
Qed.

End Strategy.
